(** * Selection and extraction engine of the sprite splitter
    (src/src/components/AssetSplitter.tsx, trimTransparent of the
    compositing module).

    A canvas is modelled as its dimensions and a pixel store indexed by
    integer coordinates; [get_pixel] is what [getImageData] returns for a
    coordinate (transparent black outside the canvas).  All rectangles the
    code paints have integer corners, so every fill covers whole pixels. *)

From Stdlib Require Import ZArith List Lia Bool QArith Qround FunctionalExtensionality.
From Stdlib Require Import Qabs Qminmax String Ascii Lqa.
Import ListNotations.
Open Scope Z_scope.

(** ** Raster model of the 2D canvas API *)

Record rgba := RGBA { red : Z; green : Z; blue : Z; alpha : Z }.

Definition transparent : rgba := RGBA 0 0 0 0.
Definition white : rgba := RGBA 255 255 255 255.

Record canvas := Canvas { width : Z; height : Z; px : Z -> Z -> rgba }.

Record rect := Rect { rx : Z; ry : Z; rw : Z; rh : Z }.

Definition in_rect (r : rect) (x y : Z) : bool :=
  (rx r <=? x) && (x <? rx r + rw r) && (ry r <=? y) && (y <? ry r + rh r).

Definition in_canvas (c : canvas) (x y : Z) : bool :=
  in_rect (Rect 0 0 (width c) (height c)) x y.

(** [getImageData]: pixels outside the canvas read as transparent black. *)
Definition get_pixel (c : canvas) (x y : Z) : rgba :=
  if in_canvas c x y then px c x y else transparent.

(** [document.createElement('canvas')] with [width]/[height] set. *)
Definition createMask (w h : Z) : canvas := Canvas w h (fun _ _ => transparent).

(** A rectangle with a negative width or height is normalised by the
    canvas before it is filled or cleared. *)
Definition norm_rect (r : rect) : rect :=
  Rect (Z.min (rx r) (rx r + rw r)) (Z.min (ry r) (ry r + rh r))
       (Z.abs (rw r)) (Z.abs (rh r)).

Inductive composite_op := SourceOver | DestinationOut | DestinationIn.

(** Porter-Duff operators on 8-bit non-premultiplied pixels, each product
    of two 8-bit alphas rounded to the nearest byte. *)
Definition mul255 (a b : Z) : Z := (a * b + 127) / 255.

Definition source_over (s d : rgba) : rgba :=
  if alpha s =? 0 then d
  else if (alpha s =? 255) || (alpha d =? 0) then s
  else
    let ao := alpha s + mul255 (alpha d) (255 - alpha s) in
    let mix cs cd := (cs * alpha s + mul255 cd (alpha d) * (255 - alpha s)) / ao in
    RGBA (mix (red s) (red d)) (mix (green s) (green d)) (mix (blue s) (blue d)) ao.

Definition destination_out (s d : rgba) : rgba :=
  if alpha s =? 0 then d
  else let ao := mul255 (alpha d) (255 - alpha s) in
       if ao =? 0 then transparent else RGBA (red d) (green d) (blue d) ao.

Definition destination_in (s d : rgba) : rgba :=
  let ao := mul255 (alpha d) (alpha s) in
  if ao =? 0 then transparent else RGBA (red d) (green d) (blue d) ao.

Definition composite (op : composite_op) (s d : rgba) : rgba :=
  match op with
  | SourceOver => source_over s d
  | DestinationOut => destination_out s d
  | DestinationIn => destination_in s d
  end.

(** [ctx.clearRect(r)]. *)
Definition clearRect (c : canvas) (r : rect) : canvas :=
  Canvas (width c) (height c)
    (fun x y => if in_rect (norm_rect r) x y then transparent else px c x y).

(** [ctx.fillStyle = 'white'; ctx.fillRect(r)] under [globalCompositeOperation = op]. *)
Definition fillRect (op : composite_op) (c : canvas) (r : rect) : canvas :=
  Canvas (width c) (height c)
    (fun x y => if in_rect (norm_rect r) x y then composite op white (px c x y)
                else px c x y).

(** [ctx.drawImage(src, sx, sy, sw, sh, dx, dy, sw, sh)] (no scaling) under
    [globalCompositeOperation = op]: the source is transparent outside the
    drawn rectangle, which matters for [destination-in]. *)
Definition drawImage (op : composite_op) (dst src : canvas) (sx sy sw sh dx dy : Z)
  : canvas :=
  Canvas (width dst) (height dst)
    (fun x y =>
       let s := if in_rect (Rect dx dy sw sh) x y
                then get_pixel src (x - dx + sx) (y - dy + sy) else transparent in
       composite op s (px dst x y)).

(** ** Mask composer *)

Inductive SelectionMode := replace | add | subtract.

Definition paintBox (mask : canvas) (x y w h : Z) (mode : SelectionMode) : canvas :=
  let mask := match mode with
              | replace => clearRect mask (Rect 0 0 (width mask) (height mask))
              | _ => mask end in
  let op := match mode with subtract => DestinationOut | _ => SourceOver end in
  fillRect op mask (Rect x y w h).

(** ** Bounds calculator *)

Definition seqZ (n : Z) : list Z := map Z.of_nat (seq 0 (Z.to_nat n)).

Definition selected (m : canvas) (x y : Z) : bool :=
  in_canvas m x y && (0 <? alpha (get_pixel m x y)).

(** State of the scan: [(minX, minY, maxX, maxY)]. *)
Definition cb_step (m : canvas) (y : Z) (st : Z * Z * Z * Z) (x : Z) : Z * Z * Z * Z :=
  let '(minX, minY, maxX, maxY) := st in
  if 0 <? alpha (get_pixel m x y) then
    (if x <? minX then x else minX,
     if y <? minY then y else minY,
     if maxX <? x then x else maxX,
     if maxY <? y then y else maxY)
  else st.

(** The scan of [computeBounds] over the image data of the mask. *)
Definition computeBounds_scan (m : canvas) : option rect :=
  let '(minX, minY, maxX, maxY) :=
    fold_left (fun st y => fold_left (cb_step m y) (seqZ (width m)) st)
              (seqZ (height m)) (width m, height m, -1, -1) in
  if maxX <? 0 then None
  else Some (Rect minX minY (maxX - minX + 1) (maxY - minY + 1)).

(** Exceptions thrown by the canvas calls of the code. *)
Inductive js_error := IndexSizeError | InvalidStateError.

(** The outcome of code that may throw. *)
Inductive throws (A : Type) : Type := Ok (a : A) | Throw (e : js_error).
Arguments Ok {A} a.
Arguments Throw {A} e.

(** [ctx.getImageData(0, 0, sw, sh)] throws an [IndexSizeError] when [sw]
    or [sh] is zero. *)
Definition getImageData_throws (sw sh : Z) : bool := (sw =? 0) || (sh =? 0).

(** [computeBounds]: [getImageData(0, 0, mask.width, mask.height)], then
    the scan. *)
Definition computeBounds (m : canvas) : throws (option rect) :=
  if getImageData_throws (width m) (height m) then Throw IndexSizeError
  else Ok (computeBounds_scan m).

(** The tight bounding box of the selected pixels: it contains every
    selected pixel and each of its four edges touches one. *)
Definition tight_bbox (m : canvas) (b : rect) : Prop :=
  (forall x y, selected m x y = true ->
     rx b <= x < rx b + rw b /\ ry b <= y < ry b + rh b) /\
  (exists y, selected m (rx b) y = true) /\
  (exists y, selected m (rx b + rw b - 1) y = true) /\
  (exists x, selected m x (ry b) = true) /\
  (exists x, selected m x (ry b + rh b - 1) = true).

(** ** Scan lemmas for [computeBounds] *)

Section Scan.

Variable f : Z * Z -> bool.
Variable g : Z * Z -> Z.

Definition run_min (l : list (Z * Z)) (m0 : Z) : Z :=
  fold_left (fun m p => if f p then (if g p <? m then g p else m) else m) l m0.

Definition run_max (l : list (Z * Z)) (m0 : Z) : Z :=
  fold_left (fun m p => if f p then (if m <? g p then g p else m) else m) l m0.

Lemma run_min_spec : forall l m0,
  run_min l m0 <= m0 /\
  (forall p, In p l -> f p = true -> run_min l m0 <= g p) /\
  (run_min l m0 = m0 \/ exists p, In p l /\ f p = true /\ g p = run_min l m0).
Proof.
  unfold run_min; induction l as [|p l IH]; intros m0; simpl.
  - split; [lia | split; [intros _ [] | left; reflexivity]].
  - set (m1 := if f p then (if g p <? m0 then g p else m0) else m0).
    destruct (IH m1) as (H1 & H2 & H3).
    assert (Hm1 : m1 <= m0 /\ (f p = true -> m1 <= g p) /\
                  (m1 = m0 \/ (f p = true /\ g p = m1))).
    { unfold m1; destruct (f p); [destruct (Z.ltb_spec (g p) m0)|]; intuition lia. }
    destruct Hm1 as (Ha & Hb & Hc).
    repeat split.
    + lia.
    + intros q [<- | Hq] Hf; [specialize (Hb Hf); lia | auto].
    + destruct H3 as [H3 | (q & Hq & Hfq & Hgq)].
      * destruct Hc as [Hc | (Hfp & Hgp)]; [left; lia | right; exists p; intuition lia].
      * right; exists q; auto.
Qed.

Lemma run_max_spec : forall l m0,
  m0 <= run_max l m0 /\
  (forall p, In p l -> f p = true -> g p <= run_max l m0) /\
  (run_max l m0 = m0 \/ exists p, In p l /\ f p = true /\ g p = run_max l m0).
Proof.
  unfold run_max; induction l as [|p l IH]; intros m0; simpl.
  - split; [lia | split; [intros _ [] | left; reflexivity]].
  - set (m1 := if f p then (if m0 <? g p then g p else m0) else m0).
    destruct (IH m1) as (H1 & H2 & H3).
    assert (Hm1 : m0 <= m1 /\ (f p = true -> g p <= m1) /\
                  (m1 = m0 \/ (f p = true /\ g p = m1))).
    { unfold m1; destruct (f p); [destruct (Z.ltb_spec m0 (g p))|]; intuition lia. }
    destruct Hm1 as (Ha & Hb & Hc).
    repeat split.
    + lia.
    + intros q [<- | Hq] Hf; [specialize (Hb Hf); lia | auto].
    + destruct H3 as [H3 | (q & Hq & Hfq & Hgq)].
      * destruct Hc as [Hc | (Hfp & Hgp)]; [left; lia | right; exists p; intuition lia].
      * right; exists q; auto.
Qed.

End Scan.

Lemma In_seqZ : forall n x, In x (seqZ n) <-> 0 <= x < n.
Proof.
  intros n x; unfold seqZ; rewrite in_map_iff; split.
  - intros (k & <- & Hk); apply in_seq in Hk; lia.
  - intros Hx; exists (Z.to_nat x); rewrite in_seq; split; lia.
Qed.

(** The pixels of a [w] by [h] raster in scan order (row by row). *)
Definition scan_points (w h : Z) : list (Z * Z) :=
  flat_map (fun y => map (fun x => (x, y)) (seqZ w)) (seqZ h).

Lemma In_scan_points : forall w h x y,
  In (x, y) (scan_points w h) <-> 0 <= x < w /\ 0 <= y < h.
Proof.
  intros w h x y; unfold scan_points; rewrite in_flat_map; split.
  - intros (y' & Hy & Hx); apply in_map_iff in Hx as (x' & Heq & Hx).
    injection Heq as <- <-; rewrite In_seqZ in Hx, Hy; lia.
  - intros (Hx & Hy); exists y; rewrite In_seqZ; split; [lia|].
    apply in_map_iff; exists x; rewrite In_seqZ; split; [reflexivity | lia].
Qed.

Lemma fold_left_map_comp {A B C} (f : A -> B -> A) (g : C -> B) l a :
  fold_left f (map g l) a = fold_left (fun acc c => f acc (g c)) l a.
Proof. revert a; induction l; simpl; auto. Qed.

Lemma fold_scan_points {A} (step : Z -> A -> Z -> A) w h (a : A) :
  fold_left (fun st y => fold_left (step y) (seqZ w) st) (seqZ h) a =
  fold_left (fun st p => step (snd p) st (fst p)) (scan_points w h) a.
Proof.
  unfold scan_points; revert a; induction (seqZ h) as [|y ys IH]; intros a; simpl.
  - reflexivity.
  - rewrite fold_left_app, fold_left_map_comp; simpl; apply IH.
Qed.

Definition on_px (m : canvas) (p : Z * Z) : bool := 0 <? alpha (get_pixel m (fst p) (snd p)).

Lemma fold_cb_step (m : canvas) l a b c d :
  fold_left (fun st p => cb_step m (snd p) st (fst p)) l (a, b, c, d) =
  (run_min (on_px m) fst l a, run_min (on_px m) snd l b,
   run_max (on_px m) fst l c, run_max (on_px m) snd l d).
Proof.
  unfold run_min, run_max, on_px; revert a b c d.
  induction l as [|[x y] l IH]; intros a b c d; simpl; [reflexivity|].
  destruct (0 <? alpha (get_pixel m x y)); apply IH.
Qed.

Lemma selected_scan (m : canvas) x y :
  selected m x y = true <-> In (x, y) (scan_points (width m) (height m)) /\ on_px m (x, y) = true.
Proof.
  unfold selected, on_px, in_canvas, in_rect; simpl; rewrite In_scan_points.
  rewrite !andb_true_iff, !Z.leb_le, !Z.ltb_lt; lia.
Qed.

Lemma computeBounds_spec (m : canvas) :
  match computeBounds_scan m with
  | None => forall x y, selected m x y = false
  | Some b => tight_bbox m b
  end.
Proof.
  unfold computeBounds_scan; rewrite fold_scan_points, fold_cb_step.
  set (P := scan_points (width m) (height m)).
  destruct (run_min_spec (on_px m) fst P (width m)) as (A1 & B1 & C1).
  destruct (run_min_spec (on_px m) snd P (height m)) as (A2 & B2 & C2).
  destruct (run_max_spec (on_px m) fst P (-1)) as (A3 & B3 & C3).
  destruct (run_max_spec (on_px m) snd P (-1)) as (A4 & B4 & C4).
  set (r1 := run_min (on_px m) fst P (width m)) in *.
  set (r2 := run_min (on_px m) snd P (height m)) in *.
  set (r3 := run_max (on_px m) fst P (-1)) in *.
  set (r4 := run_max (on_px m) snd P (-1)) in *.
  assert (HP : forall p, In p P -> on_px m p = true -> selected m (fst p) (snd p) = true).
  { intros [x y] Hin Hon; apply selected_scan; auto. }
  assert (HS : forall x y, selected m x y = true -> In (x, y) P /\ on_px m (x, y) = true).
  { intros x y; apply selected_scan. }
  assert (HB : forall p, In p P -> 0 <= fst p < width m /\ 0 <= snd p < height m).
  { intros [x y] Hin; apply In_scan_points in Hin; exact Hin. }
  destruct (Z.ltb_spec r3 0) as [Hneg | Hpos].
  - intros x y; destruct (selected m x y) eqn:Hsel; [|reflexivity].
    destruct (HS x y Hsel) as [Hin Hon].
    specialize (B3 (x, y) Hin Hon); specialize (HB (x, y) Hin); simpl in *; lia.
  - destruct C3 as [C3 | (p3 & Hin3 & Hon3 & Hg3)]; [lia|].
    destruct (HB p3 Hin3) as [Hx3 Hy3].
    specialize (B1 p3 Hin3 Hon3); specialize (B2 p3 Hin3 Hon3);
    specialize (B4 p3 Hin3 Hon3).
    destruct C1 as [C1 | (p1 & Hin1 & Hon1 & Hg1)]; [lia|].
    destruct C2 as [C2 | (p2 & Hin2 & Hon2 & Hg2)]; [lia|].
    destruct C4 as [C4 | (p4 & Hin4 & Hon4 & Hg4)]; [lia|].
    unfold tight_bbox; simpl.
    split.
    { intros x y Hsel; destruct (HS x y Hsel) as [Hin Hon].
      destruct (run_min_spec (on_px m) fst P (width m)) as (_ & E1 & _).
      destruct (run_min_spec (on_px m) snd P (height m)) as (_ & E2 & _).
      destruct (run_max_spec (on_px m) fst P (-1)) as (_ & E3 & _).
      destruct (run_max_spec (on_px m) snd P (-1)) as (_ & E4 & _).
      specialize (E1 (x, y) Hin Hon); specialize (E2 (x, y) Hin Hon);
      specialize (E3 (x, y) Hin Hon); specialize (E4 (x, y) Hin Hon).
      simpl in *; fold r1 r2 r3 r4 in E1, E2, E3, E4; lia. }
    repeat split.
    + exists (snd p1); rewrite <- Hg1; apply HP; auto.
    + exists (snd p3); replace (r1 + (r3 - r1 + 1) - 1) with (fst p3) by lia; apply HP; auto.
    + exists (fst p2); rewrite <- Hg2; apply HP; auto.
    + exists (fst p4); replace (r2 + (r4 - r2 + 1) - 1) with (snd p4) by lia; apply HP; auto.
Qed.

(** ** Committing a rectangle (box branch of [onPointerUp]) *)

(** A fresh mask of the image's size; unless the mode is replace, the
    previous committed mask is drawn into it at the origin; then
    [paintBox] composites the rectangle. *)
Definition commit_rect (prev : option canvas) (W H : Z) (r : rect) (mode : SelectionMode)
  : canvas :=
  let m := createMask W H in
  let m := match mode, prev with
           | replace, _ => m
           | _, Some p => drawImage SourceOver m p 0 0 (width p) (height p) 0 0
           | _, None => m
           end in
  paintBox m (rx r) (ry r) (rw r) (rh r) mode.

Definition rect_inside (W H : Z) (r : rect) : Prop :=
  0 <= rx r /\ 0 < rw r /\ rx r + rw r <= W /\ 0 <= ry r /\ 0 < rh r /\ ry r + rh r <= H.

Definition bbox_union (a b : rect) : rect :=
  let x := Z.min (rx a) (rx b) in
  let y := Z.min (ry a) (ry b) in
  Rect x y (Z.max (rx a + rw a) (rx b + rw b) - x) (Z.max (ry a + rh a) (ry b + rh b) - y).

Ltac bool_to_prop :=
  repeat (rewrite ?andb_true_iff, ?andb_false_iff, ?orb_true_iff, ?orb_false_iff,
                  ?Z.leb_le, ?Z.ltb_lt, ?Z.leb_gt, ?Z.ltb_ge in *).

Lemma norm_rect_id (r : rect) : 0 <= rw r -> 0 <= rh r -> norm_rect r = r.
Proof.
  destruct r as [x y w h]; unfold norm_rect; simpl; intros Hw Hh.
  f_equal; lia.
Qed.

Lemma in_canvas_iff (c : canvas) x y :
  in_canvas c x y = true <-> 0 <= x < width c /\ 0 <= y < height c.
Proof. unfold in_canvas, in_rect; simpl; bool_to_prop; lia. Qed.

Lemma get_pixel_copy (p : canvas) W H x y :
  width p = W -> height p = H ->
  get_pixel (drawImage SourceOver (createMask W H) p 0 0 (width p) (height p) 0 0) x y =
  if alpha (get_pixel p x y) =? 0 then transparent else get_pixel p x y.
Proof.
  intros HW HH; unfold get_pixel at 1; unfold drawImage, createMask, in_canvas; simpl.
  rewrite HW, HH, !Z.sub_0_r, !Z.add_0_r.
  destruct (in_rect (Rect 0 0 W H) x y) eqn:Hin.
  - unfold source_over; simpl.
    destruct (alpha (get_pixel p x y) =? 0); [reflexivity|].
    rewrite orb_true_r; reflexivity.
  - unfold get_pixel, in_canvas; rewrite HW, HH, Hin; reflexivity.
Qed.

Lemma get_pixel_fill_over (c : canvas) r x y :
  0 <= rw r -> 0 <= rh r ->
  get_pixel (fillRect SourceOver c r) x y =
  if in_canvas c x y && in_rect r x y then white else get_pixel c x y.
Proof.
  intros Hw Hh; unfold get_pixel, fillRect, in_canvas; simpl.
  rewrite norm_rect_id by assumption.
  destruct (in_rect (Rect 0 0 (width c) (height c)) x y), (in_rect r x y); reflexivity.
Qed.

Lemma get_pixel_fill_out (c : canvas) r x y :
  0 <= rw r -> 0 <= rh r ->
  get_pixel (fillRect DestinationOut c r) x y =
  if in_canvas c x y && in_rect r x y then transparent else get_pixel c x y.
Proof.
  intros Hw Hh; unfold get_pixel, fillRect, in_canvas; simpl.
  rewrite norm_rect_id by assumption.
  destruct (in_rect (Rect 0 0 (width c) (height c)) x y), (in_rect r x y); try reflexivity.
  unfold destination_out, mul255; simpl.
  replace (alpha (px c x y) * 0 + 127) with 127 by lia; reflexivity.
Qed.

Lemma get_pixel_clear_all (c : canvas) x y :
  get_pixel (clearRect c (Rect 0 0 (width c) (height c))) x y = transparent.
Proof.
  unfold get_pixel at 1; destruct (in_canvas (clearRect c _) x y) eqn:Hin; [|reflexivity].
  unfold in_canvas in Hin; simpl in Hin; fold (in_canvas c x y) in Hin.
  apply in_canvas_iff in Hin; unfold clearRect; simpl.
  rewrite norm_rect_id by (simpl; lia).
  replace (in_rect (Rect 0 0 (width c) (height c)) x y) with true; [reflexivity|].
  symmetry; unfold in_rect; simpl; bool_to_prop; lia.
Qed.

Lemma selected_get_pixel (c : canvas) x y :
  selected c x y = in_canvas c x y && (0 <? alpha (get_pixel c x y)).
Proof. reflexivity. Qed.

Lemma selected_dims (c c' : canvas) x y :
  width c = width c' -> height c = height c' ->
  get_pixel c x y = get_pixel c' x y -> selected c x y = selected c' x y.
Proof.
  intros Hw Hh Hp; unfold selected, in_canvas; rewrite Hw, Hh, Hp; reflexivity.
Qed.

(** ** C6 *)


Lemma getImageData_no_throw (sw sh : Z) :
  0 < sw -> 0 < sh -> getImageData_throws sw sh = false.
Proof. intros; unfold getImageData_throws; apply orb_false_iff; split; apply Z.eqb_neq; lia. Qed.


(** C6 (counterexample): a mask of width 0 has no selected pixel, yet
    [computeBounds] does not return [null] for it: its
    [getImageData(0, 0, 0, 3)] throws an [IndexSizeError]. *)
Lemma computeBounds_empty_mask_throws :
  (forall x y, selected (createMask 0 3) x y = false) /\
  computeBounds (createMask 0 3) = Throw IndexSizeError.
Proof.
  split; [|reflexivity].
  intros x y; unfold selected, in_canvas, in_rect; simpl.
  destruct (Z.leb_spec 0 x), (Z.ltb_spec x 0); simpl; try reflexivity; lia.
Qed.

(** C6 (amended): on a mask of positive width and height, [computeBounds]
    does not throw; it returns the tight axis-aligned bounding box
    [{x = minX, y = minY, w = maxX - minX + 1, h = maxY - minY + 1}] of the
    pixels with alpha > 0, and [null] exactly when no pixel is selected
    (the box case always has a selected pixel on each edge). *)
Theorem computeBounds_tight_or_none (m : canvas) :
  0 < width m -> 0 < height m ->
  match computeBounds m with
  | Throw _ => False
  | Ok None => forall x y, selected m x y = false
  | Ok (Some b) => tight_bbox m b /\ exists x y, selected m x y = true
  end.
Proof.
  intros Hw Hh; unfold computeBounds; rewrite getImageData_no_throw by assumption.
  pose proof (computeBounds_spec m) as H.
  destruct (computeBounds_scan m) as [b|]; [|exact H].
  split; [exact H|].
  destruct H as (_ & (y & Hy) & _); exists (rx b), y; exact Hy.
Qed.

(** ** C5 *)

(** C5: committing the same rectangle twice in Replace mode gives the very
    same mask as committing it once: Replace first clears the whole mask. *)
Theorem paintBox_replace_idempotent (m : canvas) (x y w h : Z) :
  paintBox (paintBox m x y w h replace) x y w h replace = paintBox m x y w h replace.
Proof.
  unfold paintBox, clearRect, fillRect; simpl; f_equal.
  extensionality a; extensionality b.
  destruct (in_rect (norm_rect (Rect x y w h)) a b) eqn:Hr; [reflexivity|].
  destruct (in_rect (norm_rect (Rect 0 0 (width m) (height m))) a b); reflexivity.
Qed.

(** ** C4 *)

Lemma get_pixel_commit_subtract (M : canvas) (B : rect) x y :
  0 <= rw B -> 0 <= rh B ->
  get_pixel (commit_rect (Some M) (width M) (height M) B subtract) x y =
  if in_canvas M x y && in_rect B x y then transparent
  else if alpha (get_pixel M x y) =? 0 then transparent else get_pixel M x y.
Proof.
  intros Hw Hh; unfold commit_rect, paintBox.
  rewrite get_pixel_fill_out by assumption.
  rewrite get_pixel_copy by reflexivity.
  destruct B as [bx by' bw bh]; reflexivity.
Qed.

(** C4: from a mask whose selected set is [A] union the rectangle [B],
    committing [B] in Subtract mode leaves exactly [A \ B] selected, and
    the coverage of every pixel outside [B] is unchanged. *)
Theorem subtract_law (M : canvas) (A : Z -> Z -> bool) (B : rect) :
  0 <= rw B -> 0 <= rh B ->
  (forall x y, selected M x y = true <->
     in_canvas M x y = true /\ (A x y = true \/ in_rect B x y = true)) ->
  let R := commit_rect (Some M) (width M) (height M) B subtract in
  (forall x y, selected R x y = true <->
     in_canvas M x y = true /\ A x y = true /\ in_rect B x y = false) /\
  (forall x y, in_rect B x y = false -> alpha (get_pixel R x y) = alpha (get_pixel M x y)) /\
  width R = width M /\ height R = height M.
Proof.
  intros Hw Hh HM R.
  assert (HR : forall x y, get_pixel R x y =
    if in_canvas M x y && in_rect B x y then transparent
    else if alpha (get_pixel M x y) =? 0 then transparent else get_pixel M x y)
    by (intros; apply get_pixel_commit_subtract; assumption).
  assert (Hdim : width R = width M /\ height R = height M) by (split; reflexivity).
  split; [|split; [|exact Hdim]].
  - intros x y; specialize (HM x y).
    assert (HS : selected R x y =
      in_canvas M x y && negb (in_rect B x y) && (0 <? alpha (get_pixel M x y))).
    { unfold selected at 1; unfold in_canvas at 1; rewrite (proj1 Hdim), (proj2 Hdim).
      fold (in_canvas M x y); rewrite HR.
      destruct (in_canvas M x y), (in_rect B x y); try reflexivity; simpl;
        destruct (Z.eqb_spec (alpha (get_pixel M x y)) 0) as [E|E];
        try (rewrite E; reflexivity); reflexivity. }
    rewrite HS; rewrite selected_get_pixel in HM.
    destruct (in_canvas M x y), (in_rect B x y), (A x y),
             (0 <? alpha (get_pixel M x y)); simpl in *; intuition congruence.
  - intros x y HB; rewrite HR, HB, andb_false_r.
    destruct (Z.eqb_spec (alpha (get_pixel M x y)) 0) as [E|E]; [rewrite E|]; reflexivity.
Qed.

(** ** C3 *)

Lemma selected_replace_then_add (prev : option canvas) (W H : Z) (A B : rect) x y :
  rect_inside W H A -> rect_inside W H B ->
  selected (commit_rect (Some (commit_rect prev W H A replace)) W H B add) x y =
  in_canvas (createMask W H) x y && (in_rect A x y || in_rect B x y).
Proof.
  intros HA HB; destruct A as [ax ay aw ah], B as [bx by' bw bh].
  destruct HA as (HA1 & HA2 & HA3 & HA4 & HA5 & HA6);
    destruct HB as (HB1 & HB2 & HB3 & HB4 & HB5 & HB6); simpl in *.
  unfold selected at 1; unfold commit_rect, paintBox; cbv beta iota zeta.
  rewrite get_pixel_fill_over by (simpl; lia).
  rewrite get_pixel_copy by reflexivity.
  rewrite get_pixel_fill_over by (simpl; lia).
  rewrite get_pixel_clear_all.
  unfold in_canvas; simpl.
  destruct (in_rect (Rect 0 0 W H) x y), (in_rect (Rect bx by' bw bh) x y),
    (in_rect (Rect ax ay aw ah) x y); reflexivity.
Qed.

Lemma tight_bbox_union (m : canvas) (A B : rect) (b : rect) :
  rect_inside (width m) (height m) A -> rect_inside (width m) (height m) B ->
  (forall x y, selected m x y = true <-> in_rect A x y = true \/ in_rect B x y = true) ->
  tight_bbox m b -> b = bbox_union A B.
Proof.
  intros HA HB Hsel (Hin & (y1 & Hy1) & (y2 & Hy2) & (x3 & Hx3) & (x4 & Hx4)).
  destruct HA as (HA1 & HA2 & HA3 & HA4 & HA5 & HA6);
    destruct HB as (HB1 & HB2 & HB3 & HB4 & HB5 & HB6).
  assert (PA : forall x y, rx A <= x < rx A + rw A -> ry A <= y < ry A + rh A ->
                 selected m x y = true).
  { intros x y Hx Hy; apply Hsel; left; unfold in_rect; bool_to_prop; lia. }
  assert (PB : forall x y, rx B <= x < rx B + rw B -> ry B <= y < ry B + rh B ->
                 selected m x y = true).
  { intros x y Hx Hy; apply Hsel; right; unfold in_rect; bool_to_prop; lia. }
  pose proof (Hin _ _ (PA (rx A) (ry A) ltac:(lia) ltac:(lia))) as C1.
  pose proof (Hin _ _ (PA (rx A + rw A - 1) (ry A + rh A - 1) ltac:(lia) ltac:(lia))) as C2.
  pose proof (Hin _ _ (PB (rx B) (ry B) ltac:(lia) ltac:(lia))) as C3.
  pose proof (Hin _ _ (PB (rx B + rw B - 1) (ry B + rh B - 1) ltac:(lia) ltac:(lia))) as C4.
  apply Hsel in Hy1, Hy2, Hx3, Hx4.
  unfold in_rect in Hy1, Hy2, Hx3, Hx4; bool_to_prop.
  unfold bbox_union; destruct b as [bx by' bw bh]; simpl in *.
  f_equal; lia.
Qed.

(** C3: committing rectangle [A] in Replace mode and then rectangle [B] in
    Add mode selects exactly the pixel-wise union of [A] and [B], and the
    recomputed [SelectionBounds] is the bounding box of that union. *)
Theorem union_law (prev : option canvas) (W H : Z) (A B : rect) :
  rect_inside W H A -> rect_inside W H B ->
  let M := commit_rect (Some (commit_rect prev W H A replace)) W H B add in
  (forall x y, selected M x y = true <->
     0 <= x < W /\ 0 <= y < H /\ (in_rect A x y = true \/ in_rect B x y = true)) /\
  computeBounds M = Ok (Some (bbox_union A B)).
Proof.
  intros HA HB M.
  assert (HS : forall x y, selected M x y = true <->
            in_rect A x y = true \/ in_rect B x y = true).
  { intros x y; unfold M; rewrite selected_replace_then_add by assumption.
    destruct HA as (HA1 & HA2 & HA3 & HA4 & HA5 & HA6);
      destruct HB as (HB1 & HB2 & HB3 & HB4 & HB5 & HB6).
    unfold in_canvas, in_rect; simpl; bool_to_prop; lia. }
  split.
  - intros x y; rewrite HS.
    destruct HA as (HA1 & HA2 & HA3 & HA4 & HA5 & HA6);
      destruct HB as (HB1 & HB2 & HB3 & HB4 & HB5 & HB6).
    unfold in_rect; bool_to_prop; lia.
  - unfold computeBounds.
    assert (HW : width M = W) by reflexivity; assert (HH : height M = H) by reflexivity.
    rewrite getImageData_no_throw
      by (rewrite ?HW, ?HH; unfold rect_inside in HA; lia).
    f_equal.
    pose proof (computeBounds_spec M) as HC.
    destruct (computeBounds_scan M) as [b|].
    + f_equal; apply (tight_bbox_union M); auto.
    + exfalso; destruct HA as (HA1 & HA2 & HA3 & HA4 & HA5 & HA6).
      specialize (HC (rx A) (ry A)).
      assert (selected M (rx A) (ry A) = true) as Hc; [|congruence].
      apply HS; left; unfold in_rect; bool_to_prop; lia.
Qed.

(** ** Boundary tracer ([buildMaskOutlinePath]) *)

(** JavaScript numbers on the paths below are rationals: [Math.round] is
    [floor (q + 1/2)]. *)
Definition js_round (q : Q) : Z := Qfloor (q + (1 # 2)).

(** A [moveTo(p); lineTo(q)] pair of the returned [Path2D]. *)
Definition segment : Type := ((Q * Q) * (Q * Q))%type.

Definition MAX_TRACE : Z := 512.

(** [Math.min(1, MAX_TRACE / Math.max(origW, origH))]; for an empty canvas
    the quotient is [Infinity] and the minimum is 1. *)
Definition trace_scale (origW origH : Z) : Q :=
  let m := Z.max origW origH in
  if m =? 0 then 1%Q
  else let q := (inject_Z MAX_TRACE / inject_Z m)%Q in
       if Qle_bool 1 q then 1%Q else q.

Section Tracer.

(** [drawImage(mask, 0, 0, W, H)] into a [W] by [H] offscreen canvas: the
    browser's resampling, left abstract. *)
Variable drawScaled : canvas -> Z -> Z -> canvas.

(** The segments emitted for pixel [(x, y)] ([on] is the bounded test of
    the source, [inv] the inverse scale). *)
Definition pixel_edges (on : Z -> Z -> bool) (inv : Q) (x y : Z) : list segment :=
  if negb (on x y) then []
  else
    let px := (inject_Z x * inv)%Q in
    let py := (inject_Z y * inv)%Q in
    let px1 := (inject_Z (x + 1) * inv)%Q in
    let py1 := (inject_Z (y + 1) * inv)%Q in
    (if negb (on x (y - 1)) then [((px, py), (px1, py))] else []) ++
    (if negb (on x (y + 1)) then [((px, py1), (px1, py1))] else []) ++
    (if negb (on (x - 1) y) then [((px, py), (px, py1))] else []) ++
    (if negb (on (x + 1) y) then [((px1, py), (px1, py1))] else []).

Definition buildMaskOutlinePath (mask : canvas) : list segment :=
  let origW := width mask in
  let origH := height mask in
  let scale := trace_scale origW origH in
  let W := Z.max 1 (js_round (inject_Z origW * scale)) in
  let H := Z.max 1 (js_round (inject_Z origH * scale)) in
  let invScale := Qinv scale in
  let data := if negb (Qle_bool 1 scale) then get_pixel (drawScaled mask W H)
              else get_pixel mask in
  let on x y :=
    if (x <? 0) || (y <? 0) || (W <=? x) || (H <=? y) then false
    else 0 <? alpha (data x y) in
  flat_map (fun y => flat_map (fun x => pixel_edges on invScale x y) (seqZ W)) (seqZ H).

End Tracer.

Inductive side := Up | Down | Left | Right.

Definition neighbor (d : side) (x y : Z) : Z * Z :=
  match d with
  | Up => (x, y - 1) | Down => (x, y + 1) | Left => (x - 1, y) | Right => (x + 1, y)
  end.

(** The unit edge on side [d] of pixel [(x, y)], between its two corners. *)
Definition unit_edge (d : side) (x y : Z) : segment :=
  let p := fun a b => (inject_Z a, inject_Z b) in
  match d with
  | Up => (p x y, p (x + 1) y)
  | Down => (p x (y + 1), p (x + 1) (y + 1))
  | Left => (p x y, p x (y + 1))
  | Right => (p (x + 1) y, p (x + 1) (y + 1))
  end.

(** ** C7 *)

Lemma Qmult_inject_1 z : (inject_Z z * 1)%Q = inject_Z z.
Proof. unfold Qmult, inject_Z; simpl; rewrite Z.mul_1_r; reflexivity. Qed.

Definition all_sides : list side := [Up; Down; Left; Right].

Lemma pixel_edges_unit (on : Z -> Z -> bool) x y :
  pixel_edges on 1 x y =
  if on x y then
    flat_map (fun d => if negb (on (fst (neighbor d x y)) (snd (neighbor d x y)))
                       then [unit_edge d x y] else []) all_sides
  else [].
Proof.
  unfold pixel_edges; rewrite !Qmult_inject_1.
  destruct (on x y); simpl; [|reflexivity].
  rewrite app_nil_r; reflexivity.
Qed.

Lemma In_pixel_edges (on : Z -> Z -> bool) x y s :
  In s (pixel_edges on 1 x y) <->
  on x y = true /\ exists d, on (fst (neighbor d x y)) (snd (neighbor d x y)) = false /\
                             s = unit_edge d x y.
Proof.
  rewrite pixel_edges_unit; destruct (on x y).
  - rewrite in_flat_map; split.
    + intros (d & _ & Hd); split; [reflexivity|]; exists d.
      destruct (on (fst (neighbor d x y)) (snd (neighbor d x y))); simpl in Hd;
        [contradiction | destruct Hd as [<- | []]; auto].
    + intros (_ & d & Hn & ->); exists d; split; [destruct d; simpl; tauto|].
      rewrite Hn; simpl; auto.
  - simpl; split; [intros []| intros [H _]; discriminate].
Qed.
Lemma js_round_int z : js_round (inject_Z z * 1) = z.
Proof.
  unfold js_round, Qfloor, Qplus, Qmult, inject_Z; simpl.
  symmetry; apply (Z.div_unique _ _ _ 1); lia.
Qed.
Lemma trace_scale_le_cap w h : 0 <= w -> Z.max w h <= MAX_TRACE -> trace_scale w h = 1%Q.
Proof.
  unfold trace_scale; intros Hw Hm; destruct (Z.max w h =? 0) eqn:E0; [reflexivity|].
  apply Z.eqb_neq in E0.
  destruct (Z.max w h) as [|p|p] eqn:E; [lia| |lia].
  replace (Qle_bool _ _) with true; [reflexivity|]; symmetry; apply Qle_bool_iff.
  unfold Qle, Qdiv, Qmult, Qinv, inject_Z, MAX_TRACE in *; simpl; lia.
Qed.

(** C7: for a mask whose longer side is at most the cap (512), the tracer
    runs at scale factor exactly 1, and a unit segment is emitted for a side
    of a selected pixel exactly when the 4-neighbour on that side is
    unselected or outside the mask. *)
Theorem outline_at_or_under_cap (drawScaled : canvas -> Z -> Z -> canvas) (mask : canvas) :
  0 <= width mask -> 0 <= height mask ->
  Z.max (width mask) (height mask) <= MAX_TRACE ->
  trace_scale (width mask) (height mask) = 1%Q /\
  forall s, In s (buildMaskOutlinePath drawScaled mask) <->
    exists x y d, selected mask x y = true /\
      selected mask (fst (neighbor d x y)) (snd (neighbor d x y)) = false /\
      s = unit_edge d x y.
Proof.
  intros Hw Hh Hm.
  assert (Hs : trace_scale (width mask) (height mask) = 1%Q) by (apply trace_scale_le_cap; lia).
  split; [exact Hs|].
  intros s; unfold buildMaskOutlinePath; rewrite Hs; cbv zeta.
  rewrite !js_round_int; simpl (negb (Qle_bool 1 1)); cbv iota; simpl (Qinv 1).
  set (on := fun x y => if (x <? 0) || (y <? 0) || (Z.max 1 (width mask) <=? x) ||
                          (Z.max 1 (height mask) <=? y) then false
                        else 0 <? alpha (get_pixel mask x y)).
  assert (Hon : forall x y, on x y = selected mask x y).
  { intros x y; unfold on, selected, get_pixel.
    destruct (in_canvas mask x y) eqn:Hc.
    - apply in_canvas_iff in Hc.
      replace ((x <? 0) || (y <? 0) || (Z.max 1 (width mask) <=? x) ||
               (Z.max 1 (height mask) <=? y)) with false; [reflexivity|].
      symmetry; bool_to_prop; lia.
    - destruct ((x <? 0) || (y <? 0) || (Z.max 1 (width mask) <=? x) ||
                (Z.max 1 (height mask) <=? y)); reflexivity. }
  rewrite in_flat_map; split.
  - intros (y & Hy & Hx); rewrite in_flat_map in Hx; destruct Hx as (x & Hx & He).
    apply In_pixel_edges in He as (Ho & d & Hn & ->).
    exists x, y, d; rewrite <- !Hon; auto.
  - intros (x & y & d & Hsel & Hn & ->).
    pose proof Hsel as Hc; unfold selected in Hc; apply andb_true_iff in Hc as [Hc _].
    apply in_canvas_iff in Hc.
    exists y; split; [apply In_seqZ; lia|].
    apply in_flat_map; exists x; split; [apply In_seqZ; lia|].
    apply In_pixel_edges; rewrite Hon; split; [exact Hsel|].
    exists d; split; [rewrite Hon; exact Hn | reflexivity].
Qed.

(** ** Extractor *)

(** [trimTransparent] (compositing module): [getImageData(0, 0, width,
    height)], then a scan for the tight box of the pixels with alpha > 0,
    with scan state [(minX, minY, maxX, maxY, found)]. *)
Definition tt_step (c : canvas) (y : Z) (st : Z * Z * Z * Z * bool) (x : Z)
  : Z * Z * Z * Z * bool :=
  let '(minX, minY, maxX, maxY, found) := st in
  let a := alpha (get_pixel c x y) in
  if 0 <? a then
    (if x <? minX then x else minX,
     if y <? minY then y else minY,
     if maxX <? x then x else maxX,
     if maxY <? y then y else maxY,
     true)
  else st.

Definition trimTransparent_scan (c : canvas) : option rect :=
  let '(minX, minY, maxX, maxY, found) :=
    fold_left (fun st y => fold_left (tt_step c y) (seqZ (width c)) st)
              (seqZ (height c)) (width c, height c, 0, 0, false) in
  if found then Some (Rect minX minY (maxX - minX + 1) (maxY - minY + 1)) else None.

Definition trimTransparent (c : canvas) : throws (option rect) :=
  if getImageData_throws (width c) (height c) then Throw IndexSizeError
  else Ok (trimTransparent_scan c).

(** The working buffer [crop] of [extractThroughMask]: the source cropped
    to [bounds], then the mask drawn over it with [destination-in]. *)
Definition extract_crop (image mask : canvas) (bounds : rect) : canvas :=
  let crop := createMask (rw bounds) (rh bounds) in
  let crop := drawImage SourceOver crop image (rx bounds) (ry bounds)
                (rw bounds) (rh bounds) 0 0 in
  drawImage DestinationIn crop mask (rx bounds) (ry bounds) (rw bounds) (rh bounds) 0 0.

Definition extractThroughMask (image mask : canvas) (bounds : rect) : throws canvas :=
  let crop := extract_crop image mask bounds in
  match trimTransparent crop with
  | Throw e => Throw e
  | Ok None => Ok crop
  | Ok (Some t) =>
      let out := createMask (rw t) (rh t) in
      Ok (drawImage SourceOver out crop (rx t) (ry t) (rw t) (rh t) 0 0)
  end.

(** The splitter slice of the application state. *)
Record SplitterState := {
  image : option canvas;
  selectionMask : option canvas;
  selectionBounds : option rect;
  extractedCanvas : option canvas
}.

(** [doExtract]: the extracted canvas, or [null] without a selection; an
    exception of [extractThroughMask] propagates (the dispatch of
    [extractedCanvas] is [doExtract_state], which a throw skips). *)
Definition doExtract (s : SplitterState) : throws (option canvas) :=
  match image s, selectionMask s, selectionBounds s with
  | Some img, Some m, Some b =>
      match extractThroughMask img m b with
      | Ok c => Ok (Some c)
      | Throw e => Throw e
      end
  | _, _, _ => Ok None
  end.

Definition doExtract_state (s : SplitterState) : SplitterState :=
  match doExtract s with
  | Ok (Some c) => {| image := image s; selectionMask := selectionMask s;
                      selectionBounds := selectionBounds s; extractedCanvas := Some c |}
  | _ => s
  end.

(** ** Interaction state machine *)

Inductive SplitterTool := box | lasso.

(** The eight compass handles ['nw' | 'n' | 'ne' | 'e' | 'se' | 's' | 'sw' | 'w']. *)
Inductive HandleId := HNW | HN | HNE | HE | HSE | HS | HSW | HW.

Definition handle_name (h : HandleId) : string :=
  match h with
  | HNW => "nw" | HN => "n" | HNE => "ne" | HE => "e"
  | HSE => "se" | HS => "s" | HSW => "sw" | HW => "w"
  end.

(** [handleId.includes(c)] for a one-letter [c]. *)
Definition includes (h : HandleId) (c : ascii) : bool :=
  existsb (fun a => Ascii.eqb a c) (list_ascii_of_string (handle_name h)).

Definition getHandles (b : rect) (zoom : Q) : list (HandleId * Q * Q) :=
  let cx := (inject_Z (rx b) * zoom)%Q in
  let cy := (inject_Z (ry b) * zoom)%Q in
  let cw := (inject_Z (rw b) * zoom)%Q in
  let ch := (inject_Z (rh b) * zoom)%Q in
  let mx := (cx + cw / 2)%Q in
  let my := (cy + ch / 2)%Q in
  [(HNW, cx, cy); (HN, mx, cy); (HNE, cx + cw, cy)%Q; (HE, cx + cw, my)%Q;
   (HSE, cx + cw, cy + ch)%Q; (HS, mx, cy + ch)%Q; (HSW, cx, cy + ch)%Q; (HW, cx, my)].

Definition RADIUS : Q := 6.

Fixpoint first_hit (px py : Q) (hs : list (HandleId * Q * Q)) : option HandleId :=
  match hs with
  | [] => None
  | (id, hx, hy) :: rest =>
      if Qle_bool (Qabs (px - hx)) RADIUS && Qle_bool (Qabs (py - hy)) RADIUS
      then Some id else first_hit px py rest
  end.

Definition hitHandle (px py : Q) (bounds : rect) (zoom : Q) : option HandleId :=
  first_hit px py (getHandles bounds zoom).

(** The [drag.kind === 'handle'] branch of [onPointerMove]: the candidate
    rectangle, stored only when [w > 0 && h > 0]. *)
Definition handle_move (imgW imgH : Z) (handleId : HandleId) (origBounds : rect)
  (sx sy : Z) (ipx ipy : Z) : option rect :=
  let dx := ipx - sx in
  let dy := ipy - sy in
  let x := rx origBounds in let y := ry origBounds in
  let w := rw origBounds in let h := rh origBounds in
  let '(x, w) :=
    if includes handleId "w"%char then
      let x := Z.min (rx origBounds + rw origBounds - 1) (x + dx) in
      (x, rx origBounds + rw origBounds - x)
    else (x, w) in
  let w := if includes handleId "e"%char then Z.max 1 (rw origBounds + dx) else w in
  let '(y, h) :=
    if includes handleId "n"%char then
      let y := Z.min (ry origBounds + rh origBounds - 1) (y + dy) in
      (y, ry origBounds + rh origBounds - y)
    else (y, h) in
  let h := if includes handleId "s"%char then Z.max 1 (rh origBounds + dy) else h in
  let x := Z.max 0 x in
  let y := Z.max 0 y in
  let w := Z.min w (imgW - x) in
  let h := Z.min h (imgH - y) in
  if (0 <? w) && (0 <? h) then Some (Rect x y w h) else None.

Record point := Pt { ptx : Z; pty : Z }.

Inductive DragState :=
  | DragNone
  | DragBox (mode : SelectionMode) (startImgX startImgY : Z)
  | DragLasso (mode : SelectionMode) (points : list point)
  | DragHandle (handleId : HandleId) (origBounds : rect) (startImgX startImgY : Z)
  | DragPan (startClientX startClientY startScrollLeft startScrollTop : Q).

(** A pointer event: its button, client coordinates and modifier keys, and
    the canvas-space coordinates [canvasXY(e)] computes from them. *)
Record PointerEvent := {
  button : Z; clientX : Q; clientY : Q; canvasX : Q; canvasY : Q;
  shiftKey : bool; altKey : bool
}.

(** The component's state: the splitter slice of the store, the [tool] and
    [zoom] state, [dragRef], [liveDragRectRef], [maskOutlineRef] and the
    scroll position of the container. *)
Record Editor := {
  splitter : SplitterState;
  tool : SplitterTool;
  zoom : Q;
  dragRef : DragState;
  liveDragRect : option rect;
  maskOutline : option (list segment);
  scrollLeft : Q;
  scrollTop : Q
}.

Definition set_drag (ed : Editor) (d : DragState) : Editor :=
  {| splitter := splitter ed; tool := tool ed; zoom := zoom ed; dragRef := d;
     liveDragRect := liveDragRect ed; maskOutline := maskOutline ed;
     scrollLeft := scrollLeft ed; scrollTop := scrollTop ed |}.

Definition set_live (ed : Editor) (r : option rect) : Editor :=
  {| splitter := splitter ed; tool := tool ed; zoom := zoom ed; dragRef := dragRef ed;
     liveDragRect := r; maskOutline := maskOutline ed;
     scrollLeft := scrollLeft ed; scrollTop := scrollTop ed |}.

Definition set_outline (ed : Editor) (outline : option (list segment)) : Editor :=
  {| splitter := splitter ed; tool := tool ed; zoom := zoom ed; dragRef := dragRef ed;
     liveDragRect := liveDragRect ed; maskOutline := outline;
     scrollLeft := scrollLeft ed; scrollTop := scrollTop ed |}.

Definition set_scroll (ed : Editor) (l t : Q) : Editor :=
  {| splitter := splitter ed; tool := tool ed; zoom := zoom ed; dragRef := dragRef ed;
     liveDragRect := liveDragRect ed; maskOutline := maskOutline ed;
     scrollLeft := l; scrollTop := t |}.

(** [dispatch({ type: 'SET_SPLITTER', updates })] together with the
    [maskOutlineRef] update of the same handler. *)
Definition set_selection (ed : Editor) (img : option canvas) (m : option canvas)
  (b : option rect) (outline : option (list segment)) : Editor :=
  {| splitter := {| image := img; selectionMask := m; selectionBounds := b;
                    extractedCanvas := None |};
     tool := tool ed; zoom := zoom ed; dragRef := dragRef ed;
     liveDragRect := liveDragRect ed; maskOutline := outline;
     scrollLeft := scrollLeft ed; scrollTop := scrollTop ed |}.

Definition clampToImg (img : canvas) (x y : Z) : point :=
  Pt (Z.max 0 (Z.min x (width img))) (Z.max 0 (Z.min y (height img))).

Definition selectionMode (e : PointerEvent) : SelectionMode :=
  if shiftKey e then add else if altKey e then subtract else replace.

Definition toImgCoords (zoom : Q) (cx cy : Q) : Z * Z :=
  (js_round (cx / zoom), js_round (cy / zoom)).

(** The [drag.kind === 'box'] branch of [onPointerMove]. *)
Definition box_move (imgW imgH sx sy ipx ipy : Z) : option rect :=
  let x := Z.max 0 (Z.min sx ipx) in
  let y := Z.max 0 (Z.min sy ipy) in
  let w := Z.min (Z.abs (ipx - sx)) (imgW - x) in
  let h := Z.min (Z.abs (ipy - sy)) (imgH - y) in
  if (0 <? w) && (0 <? h) then Some (Rect x y w h) else None.

(** ** Zoom steps ([ZOOM_STEPS], [onWheel], the toolbar buttons and the
    fit-to-container zoom of a first load) *)

Definition ZOOM_STEPS : list Q := [1 # 4; 1 # 2; 1; 2; 4; 8; 16; 32]%Q.

(** [Array.prototype.indexOf] on numbers ([===] compares values). *)
Fixpoint index_of (z : Q) (l : list Q) : Z :=
  match l with
  | [] => -1
  | a :: rest => if Qeq_bool a z then 0
                 else let i := index_of z rest in if i <? 0 then -1 else i + 1
  end.

(** [ZOOM_STEPS[i]]; every use below indexes inside the array. *)
Definition zoom_step (i : Z) : Q := nth (Z.to_nat i) ZOOM_STEPS 0%Q.

Definition NSTEPS : Z := Z.of_nat (List.length ZOOM_STEPS).

(** [onWheel]: the zoom after a wheel event with vertical delta [deltaY]. *)
Definition onWheel (zoom deltaY : Q) : Q :=
  let idx := index_of zoom ZOOM_STEPS in
  if negb (Qle_bool 0 deltaY) && (idx <? NSTEPS - 1) then zoom_step (idx + 1)
  else if negb (Qle_bool deltaY 0) && (0 <? idx) then zoom_step (idx - 1)
  else zoom.

(** The toolbar's minus button: [zoomIdx > 0 && setZoom(ZOOM_STEPS[zoomIdx - 1])]. *)
Definition zoomOutButton (zoom : Q) : Q :=
  let zoomIdx := index_of zoom ZOOM_STEPS in
  if 0 <? zoomIdx then zoom_step (zoomIdx - 1) else zoom.

(** The toolbar's plus button. *)
Definition zoomInButton (zoom : Q) : Q :=
  let zoomIdx := index_of zoom ZOOM_STEPS in
  if zoomIdx <? NSTEPS - 1 then zoom_step (zoomIdx + 1) else zoom.

(** [[...ZOOM_STEPS].reverse().find(z => z <= fit) ?? ZOOM_STEPS[0]]. *)
Definition nearest_step (fit : Q) : Q :=
  match find (fun z => Qle_bool z fit) (rev ZOOM_STEPS) with
  | Some z => z
  | None => zoom_step 0
  end.

(** The zoom chosen when an image is first shown:
    [Math.min(1, availW / naturalWidth, availH / naturalHeight)] rounded
    down to a step. *)
Definition fit_zoom (availW availH naturalWidth naturalHeight : Z) : Q :=
  let fit := Qmin (Qmin 1 (inject_Z availW / inject_Z naturalWidth))
                  (inject_Z availH / inject_Z naturalHeight) in
  nearest_step fit.

Section Interaction.

Variable drawScaled : canvas -> Z -> Z -> canvas.

(** [ctx.fillStyle = 'white'; ctx.beginPath(); moveTo/lineTo over the
    points; ctx.closePath(); ctx.fill()] under the given composite
    operation: the browser's (anti-aliased) polygon rasteriser, left
    abstract. *)
Variable fillPath : composite_op -> canvas -> list point -> canvas.

Definition paintLasso (mask : canvas) (points : list point) (mode : SelectionMode) : canvas :=
  if Nat.ltb (List.length points) 3 then mask
  else
    let mask := match mode with
                | replace => clearRect mask (Rect 0 0 (width mask) (height mask))
                | _ => mask end in
    let op := match mode with subtract => DestinationOut | _ => SourceOver end in
    fillPath op mask points.

(** [buildMaskOutlinePath] resamples a mask larger than [MAX_TRACE] with
    [drawImage(mask, 0, 0, W, H)], which throws an [InvalidStateError] when
    the mask has width or height 0; the tracer above is its outcome when it
    does not throw. *)
Definition outline_throws (mask : canvas) : bool :=
  (MAX_TRACE <? Z.max (width mask) (height mask)) &&
  ((width mask =? 0) || (height mask =? 0)).

(** [commitMask]: the outline ref is written first; when [computeBounds]
    throws (a mask of width or height 0) the handler stops there and the
    dispatch is not made, and when the tracer throws nothing is written.
    No caller changes modelled state after [commitMask]. *)
Definition commitMask (ed : Editor) (mask : canvas) : Editor :=
  if outline_throws mask then ed
  else
    let outline := Some (buildMaskOutlinePath drawScaled mask) in
    match computeBounds mask with
    | Throw _ => set_outline ed outline
    | Ok bounds => set_selection ed (image (splitter ed)) (Some mask) bounds outline
    end.

Definition onPointerDown (ed : Editor) (e : PointerEvent) : Editor :=
  match image (splitter ed) with
  | None => ed
  | Some img =>
      if button e =? 1 then
        set_drag ed (DragPan (clientX e) (clientY e) (scrollLeft ed) (scrollTop ed))
      else
        let '(ipx, ipy) := toImgCoords (zoom ed) (canvasX e) (canvasY e) in
        let mode := selectionMode e in
        let handle :=
          match tool ed, selectionBounds (splitter ed) with
          | box, Some b =>
              match hitHandle (canvasX e) (canvasY e) b (zoom ed) with
              | Some h => Some (DragHandle h b ipx ipy)
              | None => None
              end
          | _, _ => None
          end in
        match handle with
        | Some d => set_drag ed d
        | None =>
            match tool ed with
            | box => set_drag ed (DragBox mode ipx ipy)
            | lasso => set_drag ed (DragLasso mode [clampToImg img ipx ipy])
            end
        end
  end.

Definition onPointerMove (ed : Editor) (e : PointerEvent) : Editor :=
  match image (splitter ed) with
  | None => ed
  | Some img =>
      match dragRef ed with
      | DragPan scx scy sl st =>
          set_scroll ed (sl - (clientX e - scx))%Q (st - (clientY e - scy))%Q
      | DragNone => ed
      | DragBox mode sx sy =>
          let '(ipx, ipy) := toImgCoords (zoom ed) (canvasX e) (canvasY e) in
          match box_move (width img) (height img) sx sy ipx ipy with
          | Some r => set_live ed (Some r)
          | None => ed
          end
      | DragLasso mode pts =>
          let '(ipx, ipy) := toImgCoords (zoom ed) (canvasX e) (canvasY e) in
          (* [pts] is never empty: pointer-down stores the first point *)
          let last := List.last pts (Pt 0 0) in
          if (2 <=? Z.abs (ipx - ptx last)) || (2 <=? Z.abs (ipy - pty last))
          then set_drag ed (DragLasso mode (pts ++ [clampToImg img ipx ipy]))
          else ed
      | DragHandle hid ob sx sy =>
          let '(ipx, ipy) := toImgCoords (zoom ed) (canvasX e) (canvasY e) in
          match handle_move (width img) (height img) hid ob sx sy ipx ipy with
          | Some r => set_live ed (Some r)
          | None => ed
          end
      end
  end.

Definition onPointerUp (ed : Editor) : Editor :=
  let drag := dragRef ed in
  let liveRect := liveDragRect ed in
  let ed := set_live (set_drag ed DragNone) None in
  match drag with
  | DragPan _ _ _ _ => ed
  | _ =>
      match image (splitter ed) with
      | None => ed
      | Some img =>
          match drag, liveRect with
          | DragLasso mode pts, _ =>
              if Nat.leb 3 (List.length pts) then
                let m := createMask (width img) (height img) in
                let m := match mode, selectionMask (splitter ed) with
                         | replace, _ => m
                         | _, Some p => drawImage SourceOver m p 0 0 (width p) (height p) 0 0
                         | _, None => m
                         end in
                commitMask ed (paintLasso m pts mode)
              else ed
          | DragBox mode _ _, Some r =>
              commitMask ed (commit_rect (selectionMask (splitter ed))
                               (width img) (height img) r mode)
          | DragHandle _ _ _ _, Some r =>
              commitMask ed (commit_rect (selectionMask (splitter ed))
                               (width img) (height img) r replace)
          | _, _ => ed
          end
      end
  end.

Definition handleClear (ed : Editor) : Editor :=
  set_selection ed (image (splitter ed)) None None None.

Definition handleSelectAll (ed : Editor) : Editor :=
  match image (splitter ed) with
  | None => ed
  | Some img =>
      commitMask ed (paintBox (createMask (width img) (height img)) 0 0
                       (width img) (height img) replace)
  end.

Definition handleUnload (ed : Editor) : Editor := set_selection ed None None None None.

(** Loading an image from a file or from a layer resets the selection. *)
Definition loadImage (ed : Editor) (img : canvas) : Editor :=
  set_selection ed (Some img) None None None.

(** The drop zone exists only while no image is loaded; the load callback
    of a drop clears the outline ref and dispatches [{ image, objectUrl }]
    alone, leaving the mask, bounds and extracted canvas as they are. *)
Definition dropImage (ed : Editor) (img : canvas) : Editor :=
  match image (splitter ed) with
  | None =>
      {| splitter := {| image := Some img; selectionMask := selectionMask (splitter ed);
                        selectionBounds := selectionBounds (splitter ed);
                        extractedCanvas := extractedCanvas (splitter ed) |};
         tool := tool ed; zoom := zoom ed; dragRef := dragRef ed;
         liveDragRect := liveDragRect ed; maskOutline := None;
         scrollLeft := scrollLeft ed; scrollTop := scrollTop ed |}
  | Some _ => ed
  end.

Definition extractAction (ed : Editor) : Editor :=
  {| splitter := doExtract_state (splitter ed); tool := tool ed; zoom := zoom ed;
     dragRef := dragRef ed; liveDragRect := liveDragRect ed;
     maskOutline := maskOutline ed; scrollLeft := scrollLeft ed;
     scrollTop := scrollTop ed |}.

Definition setTool (ed : Editor) (t : SplitterTool) : Editor :=
  {| splitter := splitter ed; tool := t; zoom := zoom ed; dragRef := dragRef ed;
     liveDragRect := liveDragRect ed; maskOutline := maskOutline ed;
     scrollLeft := scrollLeft ed; scrollTop := scrollTop ed |}.

Definition setZoom (ed : Editor) (z : Q) : Editor :=
  {| splitter := splitter ed; tool := tool ed; zoom := z; dragRef := dragRef ed;
     liveDragRect := liveDragRect ed; maskOutline := maskOutline ed;
     scrollLeft := scrollLeft ed; scrollTop := scrollTop ed |}.

Inductive Action :=
  | PointerDown (e : PointerEvent)
  | PointerMove (e : PointerEvent)
  | PointerUp
  | Clear
  | SelectAll
  | Unload
  | LoadImage (img : canvas)
  | DropImage (img : canvas)
  | Extract
  | SetTool (t : SplitterTool)
  | SetZoom (z : Q).

Definition step (ed : Editor) (a : Action) : Editor :=
  match a with
  | PointerDown e => onPointerDown ed e
  | PointerMove e => onPointerMove ed e
  | PointerUp => onPointerUp ed
  | Clear => handleClear ed
  | SelectAll => handleSelectAll ed
  | Unload => handleUnload ed
  | LoadImage img => loadImage ed img
  | DropImage img => dropImage ed img
  | Extract => extractAction ed
  | SetTool t => setTool ed t
  | SetZoom z => setZoom ed z
  end.

Definition init_editor : Editor :=
  {| splitter := {| image := None; selectionMask := None; selectionBounds := None;
                    extractedCanvas := None |};
     tool := box; zoom := 1%Q; dragRef := DragNone; liveDragRect := None;
     maskOutline := None; scrollLeft := 0%Q; scrollTop := 0%Q |}.

Definition run (acts : list Action) : Editor := fold_left step acts init_editor.

End Interaction.

(** ** C2 *)

Lemma alpha_source_over_transparent (s : rgba) :
  alpha (source_over s transparent) = alpha s.
Proof.
  unfold source_over; destruct (Z.eqb_spec (alpha s) 0) as [E|E]; [simpl; lia|].
  simpl; rewrite orb_true_r; reflexivity.
Qed.

Lemma alpha_destination_in (s d : rgba) :
  alpha (destination_in s d) = mul255 (alpha d) (alpha s).
Proof.
  unfold destination_in; destruct (Z.eqb_spec (mul255 (alpha d) (alpha s)) 0) as [E|E];
    simpl; lia.
Qed.

Lemma alpha_extract_crop (image mask : canvas) (b : rect) i j :
  0 <= i < rw b -> 0 <= j < rh b ->
  alpha (get_pixel (extract_crop image mask b) i j) =
  mul255 (alpha (get_pixel image (rx b + i) (ry b + j)))
         (alpha (get_pixel mask (rx b + i) (ry b + j))).
Proof.
  intros Hi Hj; unfold extract_crop, get_pixel at 1, drawImage, createMask; simpl.
  replace (in_canvas _ i j) with true
    by (symmetry; apply in_canvas_iff; simpl; lia).
  replace (in_rect (Rect 0 0 (rw b) (rh b)) i j) with true
    by (symmetry; unfold in_rect; simpl; bool_to_prop; lia).
  rewrite alpha_destination_in, alpha_source_over_transparent.
  rewrite !Z.sub_0_r, (Z.add_comm i), (Z.add_comm j); reflexivity.
Qed.

Lemma mul255_le_min a m : 0 <= a <= 255 -> 0 <= m <= 255 -> mul255 a m <= Z.min a m.
Proof.
  intros Ha Hm; unfold mul255.
  assert (a * m <= a * 255) by (apply Z.mul_le_mono_nonneg_l; lia).
  assert (a * m <= 255 * m) by (apply Z.mul_le_mono_nonneg_r; lia).
  assert ((a * m + 127) / 255 < a + 1) by (apply Z.div_lt_upper_bound; lia).
  assert ((a * m + 127) / 255 < m + 1) by (apply Z.div_lt_upper_bound; lia).
  lia.
Qed.

Lemma mul255_binary a m : 0 <= a <= 255 -> m = 0 \/ m = 255 -> mul255 a m = Z.min a m.
Proof.
  intros Ha [-> | ->]; unfold mul255.
  - rewrite Z.mul_0_r, Z.min_r by lia; reflexivity.
  - rewrite Z.min_l by lia; symmetry; apply (Z.div_unique _ _ _ 127); lia.
Qed.

(** C2 (counterexample): a half-transparent source pixel (alpha 128) under
    a half-covered mask pixel (coverage 128, as the anti-aliased rim of a
    lasso fill leaves it) comes out with alpha 64, not [min 128 128]. *)
Lemma extract_alpha_not_min :
  alpha (get_pixel (extract_crop (Canvas 1 1 (fun _ _ => RGBA 200 10 10 128))
                                 (Canvas 1 1 (fun _ _ => RGBA 255 255 255 128))
                                 (Rect 0 0 1 1)) 0 0) = 64 /\ Z.min 128 128 = 128.
Proof. split; vm_compute; reflexivity. Qed.

(** C2 (amended): inside the bounds the working buffer's alpha is the
    [destination-in] product [source_alpha * mask_coverage / 255] (rounded);
    it never exceeds [min source_alpha mask_coverage], equals it whenever
    the coverage is 0 or 255, and is 0 where the coverage is 0. *)
Theorem extract_alpha_product (image mask : canvas) (b : rect) (i j : Z) :
  0 <= i < rw b -> 0 <= j < rh b ->
  let a := alpha (get_pixel image (rx b + i) (ry b + j)) in
  let m := alpha (get_pixel mask (rx b + i) (ry b + j)) in
  let out := alpha (get_pixel (extract_crop image mask b) i j) in
  out = mul255 a m /\
  (0 <= a <= 255 -> 0 <= m <= 255 -> out <= Z.min a m) /\
  (0 <= a <= 255 -> (m = 0 \/ m = 255) -> out = Z.min a m) /\
  (m = 0 -> out = 0).
Proof.
  intros Hi Hj a m out.
  assert (Ho : out = mul255 a m) by (apply alpha_extract_crop; assumption).
  split; [exact Ho|]; rewrite Ho; split; [|split].
  - apply mul255_le_min.
  - apply mul255_binary.
  - intros ->; unfold mul255; rewrite Z.mul_0_r; reflexivity.
Qed.

Lemma extract_alpha_product_witness :
  0 <= 0 < rw (Rect 0 0 1 1) /\ 0 <= 0 < rh (Rect 0 0 1 1) /\
  alpha (get_pixel (extract_crop (Canvas 1 1 (fun _ _ => RGBA 200 10 10 128))
                                 (Canvas 1 1 (fun _ _ => white)) (Rect 0 0 1 1)) 0 0) = 128.
Proof.
  assert (Hi : 0 <= 0 < rw (Rect 0 0 1 1)) by (simpl; lia).
  assert (Hj : 0 <= 0 < rh (Rect 0 0 1 1)) by (simpl; lia).
  split; [exact Hi | split; [exact Hj|]].
  destruct (extract_alpha_product (Canvas 1 1 (fun _ _ => RGBA 200 10 10 128))
              (Canvas 1 1 (fun _ _ => white)) (Rect 0 0 1 1) 0 0 Hi Hj)
    as (_ & _ & Hbin & _).
  rewrite Hbin; [reflexivity | vm_compute; split; discriminate | right; reflexivity].
Defined.

(** ** C8 *)

Lemma fold_tt_found (c : canvas) l a b c' d f :
  snd (fold_left (fun st p => tt_step c (snd p) st (fst p)) l (a, b, c', d, f)) =
  f || existsb (on_px c) l.
Proof.
  revert a b c' d f; induction l as [|[x y] l IH]; intros a b c' d f; simpl.
  - rewrite orb_false_r; reflexivity.
  - unfold on_px at 1; simpl.
    destruct (0 <? alpha (get_pixel c x y)); rewrite IH; simpl.
    + rewrite orb_true_r; reflexivity.
    + reflexivity.
Qed.

Lemma trimTransparent_none_iff (c : canvas) :
  trimTransparent_scan c = None <-> forall x y, selected c x y = false.
Proof.
  unfold trimTransparent_scan; rewrite fold_scan_points.
  pose proof (fold_tt_found c (scan_points (width c) (height c))
                (width c) (height c) 0 0 false) as Hf.
  destruct (fold_left _ _ _) as [[[[a b] c'] d] f]; simpl in Hf; subst f.
  split.
  - destruct (existsb _ _) eqn:E; [discriminate|intros _ x y].
    destruct (selected c x y) eqn:Hs; [|reflexivity].
    apply selected_scan in Hs as [Hin Hon].
    assert (existsb (on_px c) (scan_points (width c) (height c)) = true) as Ht
      by (apply existsb_exists; exists (x, y); auto).
    congruence.
  - intros Hno; destruct (existsb _ _) eqn:E; [|reflexivity].
    apply existsb_exists in E as ([x y] & Hin & Hon).
    assert (selected c x y = true) by (apply selected_scan; auto); congruence.
Qed.

Lemma computeBounds_inside (m : canvas) (b : rect) :
  computeBounds_scan m = Some b -> rect_inside (width m) (height m) b.
Proof.
  intros E; pose proof (computeBounds_spec m) as H; rewrite E in H.
  destruct H as (I & (y1 & L) & (y2 & R) & (x1 & T) & (x2 & D)).
  pose proof (I _ _ L) as IL; pose proof (I _ _ T) as IT.
  unfold selected in L, R, T, D; apply andb_true_iff in L as [L _], R as [R _],
                                   T as [T _], D as [D _].
  apply in_canvas_iff in L, R, T, D.
  unfold rect_inside; lia.
Qed.

Definition bounds_inv (ed : Editor) : Prop :=
  match selectionBounds (splitter ed) with
  | None => True
  | Some b => image (splitter ed) <> None /\ selectionMask (splitter ed) <> None /\
              0 < rw b /\ 0 < rh b
  end.

Ltac destruct_matches :=
  repeat match goal with
         | |- context [match ?x with _ => _ end] => destruct x
         end.

Lemma commitMask_drag drawScaled ed m : dragRef (commitMask drawScaled ed m) = dragRef ed.
Proof. unfold commitMask; destruct_matches; reflexivity. Qed.

Lemma commitMask_live drawScaled ed m :
  liveDragRect (commitMask drawScaled ed m) = liveDragRect ed.
Proof. unfold commitMask; destruct_matches; reflexivity. Qed.

Lemma onPointerDown_splitter ed e : splitter (onPointerDown ed e) = splitter ed.
Proof. unfold onPointerDown; destruct_matches; reflexivity. Qed.

Lemma onPointerMove_splitter ed e : splitter (onPointerMove ed e) = splitter ed.
Proof. unfold onPointerMove; destruct_matches; reflexivity. Qed.

Lemma onPointerUp_cases drawScaled fillPath ed :
  splitter (onPointerUp drawScaled fillPath ed) = splitter ed \/
  (image (splitter ed) <> None /\
   exists m, onPointerUp drawScaled fillPath ed =
             commitMask drawScaled (set_live (set_drag ed DragNone) None) m).
Proof.
  unfold onPointerUp.
  change (image (splitter (set_live (set_drag ed DragNone) None))) with (image (splitter ed)).
  change (selectionMask (splitter (set_live (set_drag ed DragNone) None)))
    with (selectionMask (splitter ed)).
  destruct (dragRef ed) eqn:Hd; try (left; reflexivity);
    destruct (image (splitter ed)) eqn:Hi; try (left; reflexivity).
  - destruct (liveDragRect ed); [|left; reflexivity].
    right; split; [discriminate | eexists; reflexivity].
  - destruct (Nat.leb 3 (List.length points)); [|left; reflexivity].
    right; split; [discriminate | eexists; reflexivity].
  - destruct (liveDragRect ed); [|left; reflexivity].
    right; split; [discriminate | eexists; reflexivity].
Qed.

Lemma commitMask_inv drawScaled ed m :
  image (splitter ed) <> None -> bounds_inv ed -> bounds_inv (commitMask drawScaled ed m).
Proof.
  intros Hi Hinv; unfold commitMask, computeBounds.
  destruct (outline_throws m); [exact Hinv|].
  destruct (getImageData_throws (width m) (height m)); [exact Hinv|].
  unfold bounds_inv; simpl.
  destruct (computeBounds_scan m) as [b|] eqn:E; [|exact I].
  apply computeBounds_inside in E; unfold rect_inside in E.
  split; [exact Hi | split; [discriminate | lia]].
Qed.

Lemma step_inv drawScaled fillPath ed a :
  bounds_inv ed -> bounds_inv (step drawScaled fillPath ed a).
Proof.
  intros Hinv; destruct a; simpl.
  - unfold bounds_inv; rewrite onPointerDown_splitter; exact Hinv.
  - unfold bounds_inv; rewrite onPointerMove_splitter; exact Hinv.
  - destruct (onPointerUp_cases drawScaled fillPath ed) as [E | (Hi & m & E)].
    + unfold bounds_inv; rewrite E; exact Hinv.
    + rewrite E; apply commitMask_inv; [exact Hi | exact Hinv].
  - exact I.
  - unfold handleSelectAll; destruct (image (splitter ed)) eqn:Hi; [|exact Hinv].
    apply commitMask_inv; [rewrite Hi; discriminate | exact Hinv].
  - exact I.
  - exact I.
  - unfold dropImage; destruct (image (splitter ed)) eqn:Hi; [exact Hinv|].
    unfold bounds_inv in *; simpl.
    destruct (selectionBounds (splitter ed)); [|exact I].
    destruct Hinv as (Hn & _); congruence.
  - unfold extractAction, doExtract_state, bounds_inv; simpl.
    destruct (doExtract (splitter ed)) as [[c|]|]; exact Hinv.
  - exact Hinv.
  - exact Hinv.
Qed.

Lemma run_inv drawScaled fillPath acts : bounds_inv (run drawScaled fillPath acts).
Proof.
  unfold run.
  assert (H0 : bounds_inv init_editor) by exact I.
  revert H0; generalize init_editor; induction acts as [|a acts IH]; intros ed Hed; simpl.
  - exact Hed.
  - apply IH, step_inv, Hed.
Qed.

(** C8: in every reachable state, extraction returns [None] exactly when
    there is no selection ([selectionBounds] is [None]); with a selection
    whose masked crop has no pixel of alpha > 0, the result is that
    untrimmed crop, of the bounds' size and fully transparent. *)
Theorem extract_none_iff_no_selection
  (drawScaled : canvas -> Z -> Z -> canvas)
  (fillPath : composite_op -> canvas -> list point -> canvas) (acts : list Action) :
  let s := splitter (run drawScaled fillPath acts) in
  (doExtract s = Ok None <-> selectionBounds s = None) /\
  (forall img m b, image s = Some img -> selectionMask s = Some m ->
     selectionBounds s = Some b ->
     (forall x y, selected (extract_crop img m b) x y = false) ->
     doExtract s = Ok (Some (extract_crop img m b)) /\
     width (extract_crop img m b) = rw b /\ height (extract_crop img m b) = rh b /\
     forall x y, selected (extract_crop img m b) x y = false).
Proof.
  cbv zeta.
  pose proof (run_inv drawScaled fillPath acts) as Hinv; unfold bounds_inv in Hinv.
  set (s := splitter (run drawScaled fillPath acts)) in *.
  split.
  - unfold doExtract, extractThroughMask, trimTransparent.
    destruct (selectionBounds s) as [b|] eqn:Hb.
    + destruct Hinv as (Hi & Hm & Hw & Hh).
      destruct (image s) as [img|]; [|congruence].
      destruct (selectionMask s) as [m|]; [|congruence].
      replace (getImageData_throws _ _) with false
        by (unfold getImageData_throws; simpl; symmetry; bool_to_prop; lia).
      destruct (trimTransparent_scan _); split; discriminate.
    + destruct (image s), (selectionMask s); split; reflexivity.
  - intros img m b Hi Hm Hb Hno.
    rewrite Hb in Hinv; destruct Hinv as (_ & _ & Hw & Hh).
    apply trimTransparent_none_iff in Hno.
    unfold doExtract, extractThroughMask, trimTransparent; rewrite Hi, Hm, Hb.
    replace (getImageData_throws _ _) with false
      by (unfold getImageData_throws; simpl; symmetry; bool_to_prop; lia).
    rewrite Hno.
    split; [reflexivity | split; [reflexivity | split; [reflexivity|]]].
    apply trimTransparent_none_iff; exact Hno.
Qed.

(** ** C9 *)

(** C9: releasing a lasso drag that recorded fewer than 3 points composites
    nothing: [paintLasso] returns its mask as is, and the committed mask,
    [selectionBounds] and the outline are left unchanged. *)
Theorem lasso_short_noop
  (drawScaled : canvas -> Z -> Z -> canvas)
  (fillPath : composite_op -> canvas -> list point -> canvas)
  (ed : Editor) (mode : SelectionMode) (pts : list point) :
  dragRef ed = DragLasso mode pts -> (List.length pts < 3)%nat ->
  (forall m, paintLasso fillPath m pts mode = m) /\
  let ed' := onPointerUp drawScaled fillPath ed in
  splitter ed' = splitter ed /\ maskOutline ed' = maskOutline ed.
Proof.
  intros Hd Hlen; split.
  - intros m; unfold paintLasso.
    replace (Nat.ltb (List.length pts) 3) with true
      by (symmetry; apply Nat.ltb_lt; exact Hlen); reflexivity.
  - unfold onPointerUp; rewrite Hd.
    change (image (splitter (set_live (set_drag ed DragNone) None))) with (image (splitter ed)).
    replace (Nat.leb 3 (List.length pts)) with false
      by (symmetry; apply Nat.leb_gt; exact Hlen).
    destruct (image (splitter ed)); split; reflexivity.
Qed.

Lemma lasso_short_noop_witness :
  let ed := {| splitter := {| image := Some (createMask 4 4); selectionMask := None;
                              selectionBounds := None; extractedCanvas := None |};
               tool := lasso; zoom := 1%Q;
               dragRef := DragLasso replace [Pt 0 0; Pt 3 3];
               liveDragRect := None; maskOutline := None;
               scrollLeft := 0%Q; scrollTop := 0%Q |} in
  dragRef ed = DragLasso replace [Pt 0 0; Pt 3 3] /\
  (List.length [Pt 0 0; Pt 3 3] < 3)%nat /\
  splitter (onPointerUp (fun c _ _ => c) (fun _ c _ => c) ed) = splitter ed.
Proof.
  intros ed.
  assert (Hd : dragRef ed = DragLasso replace [Pt 0 0; Pt 3 3]) by reflexivity.
  assert (Hl : (List.length [Pt 0 0; Pt 3 3] < 3)%nat) by (simpl; lia).
  split; [exact Hd | split; [exact Hl|]].
  exact (proj1 (proj2 (lasso_short_noop (fun c _ _ => c) (fun _ c _ => c) ed replace _ Hd Hl))).
Defined.

(** ** C10 *)

Definition in_img (img : canvas) (p : point) : Prop :=
  0 <= ptx p <= width img /\ 0 <= pty p <= height img.

Lemma clampToImg_in (img : canvas) x y :
  0 <= width img -> 0 <= height img -> in_img img (clampToImg img x y).
Proof. intros Hw Hh; unfold in_img, clampToImg; simpl; lia. Qed.

Lemma onPointerUp_drag drawScaled fillPath ed :
  dragRef (onPointerUp drawScaled fillPath ed) = DragNone.
Proof. unfold onPointerUp, commitMask; destruct_matches; reflexivity. Qed.

(** C10: every step keeps the points already stored in a lasso session and
    adds only points clamped into [[0, width] x [0, height]] of the loaded
    image (the point stored at pointer-down and each throttled point
    appended at pointer-move). *)
Theorem lasso_points_clamped
  (drawScaled : canvas -> Z -> Z -> canvas)
  (fillPath : composite_op -> canvas -> list point -> canvas)
  (ed : Editor) (a : Action) :
  (forall img, image (splitter ed) = Some img -> 0 <= width img /\ 0 <= height img) ->
  match dragRef (step drawScaled fillPath ed a) with
  | DragLasso _ pts' =>
      exists old added, pts' = old ++ added /\
        (old = [] \/ exists m, dragRef ed = DragLasso m old) /\
        (forall p, In p added ->
           exists img, image (splitter ed) = Some img /\ in_img img p)
  | _ => True
  end.
Proof.
  intros Hwf.
  assert (Keep : forall ed', dragRef ed' = dragRef ed ->
    match dragRef ed' with
    | DragLasso _ pts' => exists old added, pts' = old ++ added /\
        (old = [] \/ exists m, dragRef ed = DragLasso m old) /\
        (forall p, In p added -> exists img, image (splitter ed) = Some img /\ in_img img p)
    | _ => True end).
  { intros ed' E; rewrite E; destruct (dragRef ed) as [| | m pts | |]; trivial.
    exists pts, []; rewrite app_nil_r; split; [reflexivity|].
    split; [right; exists m; reflexivity | intros p []]. }
  destruct a; simpl; try (apply Keep; reflexivity).
  - unfold onPointerDown.
    destruct (image (splitter ed)) as [img|] eqn:Hi; [|apply Keep; reflexivity].
    destruct (button e =? 1); [exact I|].
    destruct (toImgCoords (zoom ed) (canvasX e) (canvasY e)) as [ipx ipy].
    destruct (tool ed).
    + destruct (selectionBounds (splitter ed)) as [b|]; simpl; [|exact I].
      destruct (hitHandle (canvasX e) (canvasY e) b (zoom ed)); simpl; exact I.
    + simpl; exists [], [clampToImg img ipx ipy]; split; [reflexivity|].
      split; [left; reflexivity|].
      intros p [<- | []]; exists img; split; [reflexivity|].
      destruct (Hwf img eq_refl); apply clampToImg_in; assumption.
  - unfold onPointerMove.
    destruct (image (splitter ed)) as [img|] eqn:Hi; [|apply Keep; reflexivity].
    destruct (dragRef ed) as [| mode sx sy | mode pts | hid ob sx sy | a b c d] eqn:Hd.
    + rewrite Hd; exact I.
    + destruct (toImgCoords _ _ _); destruct (box_move _ _ _ _ _ _); simpl; rewrite Hd; exact I.
    + destruct (toImgCoords (zoom ed) (canvasX e) (canvasY e)) as [ipx ipy].
      destruct (_ || _); simpl.
      * exists pts, [clampToImg img ipx ipy]; split; [reflexivity|].
        split; [right; exists mode; reflexivity|].
        intros p [<- | []]; exists img; split; [reflexivity|].
        destruct (Hwf img eq_refl); apply clampToImg_in; assumption.
      * rewrite Hd; exists pts, []; rewrite app_nil_r; split; [reflexivity|].
        split; [right; exists mode; reflexivity | intros p []].
    + destruct (toImgCoords _ _ _); destruct (handle_move _ _ _ _ _ _ _ _); simpl;
        rewrite Hd; exact I.
    + simpl; rewrite Hd; exact I.
  - rewrite onPointerUp_drag; exact I.
  - unfold handleSelectAll; destruct (image (splitter ed)); apply Keep;
      [apply commitMask_drag | reflexivity].
  - unfold dropImage; destruct (image (splitter ed)); apply Keep; reflexivity.
Qed.

Definition lasso_demo_editor : Editor :=
  {| splitter := {| image := Some (createMask 4 4); selectionMask := None;
                    selectionBounds := None; extractedCanvas := None |};
     tool := lasso; zoom := 1%Q; dragRef := DragNone; liveDragRect := None;
     maskOutline := None; scrollLeft := 0%Q; scrollTop := 0%Q |}.

Definition pointer_at (x y : Q) : PointerEvent :=
  {| button := 0; clientX := x; clientY := y; canvasX := x; canvasY := y;
     shiftKey := false; altKey := false |}.

Lemma lasso_points_clamped_witness :
  (forall img, image (splitter lasso_demo_editor) = Some img ->
     0 <= width img /\ 0 <= height img) /\
  dragRef (step (fun c _ _ => c) (fun _ c _ => c) lasso_demo_editor
             (PointerDown (pointer_at 9 (-3)))) = DragLasso replace [Pt 4 0] /\
  match dragRef (step (fun c _ _ => c) (fun _ c _ => c) lasso_demo_editor
                   (PointerDown (pointer_at 9 (-3)))) with
  | DragLasso _ pts' =>
      exists old added, pts' = old ++ added /\
        (old = [] \/ exists m, dragRef lasso_demo_editor = DragLasso m old) /\
        (forall p, In p added ->
           exists img, image (splitter lasso_demo_editor) = Some img /\ in_img img p)
  | _ => True
  end.
Proof.
  assert (Hwf : forall img, image (splitter lasso_demo_editor) = Some img ->
            0 <= width img /\ 0 <= height img).
  { intros img Hi; injection Hi as <-; simpl; lia. }
  split; [exact Hwf | split; [vm_compute; reflexivity|]].
  exact (lasso_points_clamped (fun c _ _ => c) (fun _ c _ => c) lasso_demo_editor
           (PointerDown (pointer_at 9 (-3))) Hwf).
Defined.

(** ** C1 *)

(** The session of the C1 failing input: a 20 x 40 image, a box drag from
    (5, 5) to (15, 35) at zoom 1, then the ['w'] handle at (5, 20) dragged
    to (-5, 20), left of the canvas. *)
Definition handle_w_session : list Action :=
  [LoadImage (Canvas 20 40 (fun _ _ => white));
   PointerDown (pointer_at 5 5); PointerMove (pointer_at 15 35); PointerUp;
   PointerDown (pointer_at 5 20); PointerMove (pointer_at (-5) 20); PointerUp].

(** C1 (failing input): the box selection is [{5, 5, 10, 30}] (east edge at
    15); dragging its ['w'] handle past the left border commits
    [{0, 5, 20, 30}], whose east edge is at 20: clamping [x] to 0 after
    [w] was computed from the unclamped [x] moves the east edge. *)
Theorem handle_w_drag_moves_east_edge :
  selectionBounds (splitter (run (fun c _ _ => c) (fun _ c _ => c)
                               (firstn 4 handle_w_session))) = Some (Rect 5 5 10 30) /\
  hitHandle 5 20 (Rect 5 5 10 30) 1 = Some HW /\
  handle_move 20 40 HW (Rect 5 5 10 30) 5 20 (-5) 20 = Some (Rect 0 5 20 30) /\
  selectionBounds (splitter (run (fun c _ _ => c) (fun _ c _ => c) handle_w_session)) =
    Some (Rect 0 5 20 30) /\
  0 + 20 <> 5 + 10.
Proof. repeat split; try vm_compute; reflexivity || discriminate. Qed.

(** While the dragged west edge stays inside the image, a ['w'] drag keeps
    the east edge where it was: the code computes [w] to do so. *)
Lemma handle_w_keeps_east_inside (W H : Z) (hid : HandleId) (ob r : rect) sx sy ipx ipy :
  includes hid "w"%char = true -> rect_inside W H ob -> 0 <= rx ob + (ipx - sx) ->
  handle_move W H hid ob sx sy ipx ipy = Some r -> rx r + rw r = rx ob + rw ob.
Proof.
  intros Hw Hin Hx; destruct Hin as (H1 & H2 & H3 & H4 & H5 & H6).
  destruct hid; try discriminate; unfold handle_move; simpl;
    match goal with |- context [if ?c then _ else _] => destruct c end;
    intros E; try discriminate; injection E as <-; simpl; lia.
Qed.

(** ** Witnesses *)

Lemma union_law_witness :
  rect_inside 100 100 (Rect 10 10 40 40) /\ rect_inside 100 100 (Rect 30 30 40 40) /\
  computeBounds (commit_rect (Some (commit_rect None 100 100 (Rect 10 10 40 40) replace))
                100 100 (Rect 30 30 40 40) add) = Ok (Some (Rect 10 10 60 60)).
Proof.
  assert (HA : rect_inside 100 100 (Rect 10 10 40 40)) by (unfold rect_inside; simpl; lia).
  assert (HB : rect_inside 100 100 (Rect 30 30 40 40)) by (unfold rect_inside; simpl; lia).
  split; [exact HA | split; [exact HB|]].
  exact (proj2 (union_law None 100 100 _ _ HA HB)).
Defined.

Definition full_white_4x4 : canvas := Canvas 4 4 (fun _ _ => white).

Lemma computeBounds_tight_or_none_witness :
  0 < width full_white_4x4 /\ 0 < height full_white_4x4 /\
  computeBounds full_white_4x4 = Ok (Some (Rect 0 0 4 4)) /\
  tight_bbox full_white_4x4 (Rect 0 0 4 4).
Proof.
  assert (Hw : 0 < width full_white_4x4) by (simpl; lia).
  assert (Hh : 0 < height full_white_4x4) by (simpl; lia).
  assert (E : computeBounds full_white_4x4 = Ok (Some (Rect 0 0 4 4))) by (vm_compute; reflexivity).
  split; [exact Hw | split; [exact Hh | split; [exact E|]]].
  pose proof (computeBounds_tight_or_none full_white_4x4 Hw Hh) as H.
  rewrite E in H; exact (proj1 H).
Defined.

Lemma subtract_law_witness :
  0 <= rw (Rect 1 1 2 2) /\ 0 <= rh (Rect 1 1 2 2) /\
  (forall x y, selected full_white_4x4 x y = true <->
     in_canvas full_white_4x4 x y = true /\
     ((fun _ _ => true) x y = true \/ in_rect (Rect 1 1 2 2) x y = true)) /\
  selected (commit_rect (Some full_white_4x4) 4 4 (Rect 1 1 2 2) subtract) 0 0 = true /\
  selected (commit_rect (Some full_white_4x4) 4 4 (Rect 1 1 2 2) subtract) 1 1 = false.
Proof.
  assert (Hw : 0 <= rw (Rect 1 1 2 2)) by (simpl; lia).
  assert (Hh : 0 <= rh (Rect 1 1 2 2)) by (simpl; lia).
  assert (HM : forall x y, selected full_white_4x4 x y = true <->
     in_canvas full_white_4x4 x y = true /\
     ((fun _ _ => true) x y = true \/ in_rect (Rect 1 1 2 2) x y = true)).
  { intros x y; unfold selected, get_pixel.
    destruct (in_canvas full_white_4x4 x y); simpl; intuition. }
  split; [exact Hw | split; [exact Hh | split; [exact HM|]]].
  destruct (subtract_law full_white_4x4 (fun _ _ => true) (Rect 1 1 2 2) Hw Hh HM)
    as (Hsel & _ & _).
  split.
  - apply Hsel; vm_compute; auto.
  - destruct (selected _ 1 1) eqn:E; [|reflexivity].
    apply Hsel in E; vm_compute in E; destruct E as (_ & _ & E); discriminate.
Defined.

Lemma outline_at_or_under_cap_witness :
  0 <= width (createMask 3 2) /\ 0 <= height (createMask 3 2) /\
  Z.max (width (createMask 3 2)) (height (createMask 3 2)) <= MAX_TRACE /\
  trace_scale 3 2 = 1%Q.
Proof.
  assert (H1 : 0 <= width (createMask 3 2)) by (simpl; lia).
  assert (H2 : 0 <= height (createMask 3 2)) by (simpl; lia).
  assert (H3 : Z.max (width (createMask 3 2)) (height (createMask 3 2)) <= MAX_TRACE)
    by (vm_compute; discriminate).
  split; [exact H1 | split; [exact H2 | split; [exact H3|]]].
  exact (proj1 (outline_at_or_under_cap (fun c _ _ => c) (createMask 3 2) H1 H2 H3)).
Defined.

(** ** Zoom steps *)

Lemma index_of_steps (i : Z) : 0 <= i < NSTEPS -> index_of (zoom_step i) ZOOM_STEPS = i.
Proof.
  change NSTEPS with 8; intros Hi.
  assert (i = 0 \/ i = 1 \/ i = 2 \/ i = 3 \/ i = 4 \/ i = 5 \/ i = 6 \/ i = 7) as Hc by lia.
  repeat destruct Hc as [-> | Hc]; try (vm_compute; reflexivity).
  subst; vm_compute; reflexivity.
Qed.

Lemma index_of_absent (z : Q) (l : list Q) :
  (forall a, In a l -> ~ (a == z)%Q) -> index_of z l = -1.
Proof.
  induction l as [|a l IH]; intros Hno; simpl; [reflexivity|].
  destruct (Qeq_bool a z) eqn:E.
  - apply Qeq_bool_iff in E; exfalso; apply (Hno a); [left; reflexivity | exact E].
  - rewrite IH by (intros b Hb; apply Hno; right; exact Hb); reflexivity.
Qed.

Lemma Qle_bool_false (a b : Q) : Qle_bool a b = false -> (b < a)%Q.
Proof.
  intros E; apply Qnot_le_lt; intros H; apply Qle_bool_iff in H; congruence.
Qed.

Lemma Qle_bool_true (a b : Q) : Qle_bool a b = true -> (a <= b)%Q.
Proof. apply Qle_bool_iff. Qed.

(** From the zoom [ZOOM_STEPS[i]], a wheel step up (negative [deltaY])
    goes to the next step and stops at the last one, a step down goes
    to the previous step and stops at the first one, and a zero delta
    keeps the zoom; the toolbar's plus and minus buttons go to the same
    steps as the wheel. *)
Theorem onWheel_moves_one_step (i : Z) (deltaY : Q) :
  0 <= i < NSTEPS ->
  ((deltaY < 0)%Q ->
     onWheel (zoom_step i) deltaY = zoom_step (Z.min (i + 1) (NSTEPS - 1)) /\
     zoomInButton (zoom_step i) = zoom_step (Z.min (i + 1) (NSTEPS - 1))) /\
  ((0 < deltaY)%Q ->
     onWheel (zoom_step i) deltaY = zoom_step (Z.max (i - 1) 0) /\
     zoomOutButton (zoom_step i) = zoom_step (Z.max (i - 1) 0)) /\
  ((deltaY == 0)%Q -> onWheel (zoom_step i) deltaY = zoom_step i).
Proof.
  intros Hi; pose proof (index_of_steps i Hi) as Hidx.
  unfold onWheel, zoomInButton, zoomOutButton; rewrite Hidx.
  change NSTEPS with 8 in *.
  split; [|split].
  - intros Hd.
    destruct (Qle_bool 0 deltaY) eqn:E1; [apply Qle_bool_true in E1; lra|].
    destruct (Qle_bool deltaY 0) eqn:E2; [|apply Qle_bool_false in E2; lra].
    simpl; change (8 - 1) with 7; destruct (Z.ltb_spec i 7).
    + rewrite Z.min_l by lia; split; reflexivity.
    + rewrite Z.min_r by lia; replace 7 with i by lia; split; reflexivity.
  - intros Hd.
    destruct (Qle_bool 0 deltaY) eqn:E1; [|apply Qle_bool_false in E1; lra].
    destruct (Qle_bool deltaY 0) eqn:E2; [apply Qle_bool_true in E2; lra|].
    simpl; destruct (Z.ltb_spec 0 i).
    + rewrite Z.max_l by lia; split; reflexivity.
    + rewrite Z.max_r by lia; assert (i = 0) as -> by lia; split; reflexivity.
  - intros Hd.
    destruct (Qle_bool 0 deltaY) eqn:E1; [|apply Qle_bool_false in E1; lra].
    destruct (Qle_bool deltaY 0) eqn:E2; [|apply Qle_bool_false in E2; lra].
    reflexivity.
Qed.

Lemma onWheel_moves_one_step_witness :
  0 <= 2 < NSTEPS /\ onWheel (zoom_step 2) (-1) = 2%Q /\ onWheel (zoom_step 7) (-1) = 32%Q.
Proof.
  assert (H2 : 0 <= 2 < NSTEPS) by (change NSTEPS with 8; lia).
  assert (H7 : 0 <= 7 < NSTEPS) by (change NSTEPS with 8; lia).
  split; [exact H2|split].
  - rewrite (proj1 (proj1 (onWheel_moves_one_step 2 (-1) H2) ltac:(lra))); reflexivity.
  - rewrite (proj1 (proj1 (onWheel_moves_one_step 7 (-1) H7) ltac:(lra))); reflexivity.
Defined.

(** A zoom that is not one of [ZOOM_STEPS] has index -1: a wheel step up
    then jumps to the first step (25%), whatever the zoom was, and a
    wheel step down leaves it unchanged. *)
Theorem onWheel_off_steps (z deltaY : Q) :
  (forall a, In a ZOOM_STEPS -> ~ (a == z)%Q) ->
  ((deltaY < 0)%Q -> onWheel z deltaY = zoom_step 0) /\
  ((0 <= deltaY)%Q -> onWheel z deltaY = z).
Proof.
  intros Hno; unfold onWheel; rewrite (index_of_absent z ZOOM_STEPS Hno).
  split; intros Hd.
  - destruct (Qle_bool 0 deltaY) eqn:E1; [apply Qle_bool_true in E1; lra|]; reflexivity.
  - destruct (Qle_bool 0 deltaY) eqn:E1; [|apply Qle_bool_false in E1; lra].
    simpl; rewrite andb_false_r; reflexivity.
Qed.

Lemma onWheel_off_steps_witness :
  (forall a, In a ZOOM_STEPS -> ~ (a == 3)%Q) /\ onWheel 3 (-1) = zoom_step 0.
Proof.
  assert (Hno : forall a, In a ZOOM_STEPS -> ~ (a == 3)%Q).
  { intros a Ha; simpl in Ha; repeat destruct Ha as [<- | Ha]; try contradiction;
      intros E; vm_compute in E; discriminate. }
  split; [exact Hno|].
  exact (proj1 (onWheel_off_steps 3 (-1) Hno) ltac:(lra)).
Defined.

Lemma nearest_step_spec (fit : Q) :
  let z := nearest_step fit in
  In z ZOOM_STEPS /\ (((1 # 4) <= fit)%Q -> (z <= fit)%Q) /\
  ((fit < 1 # 4)%Q -> z = zoom_step 0) /\
  (forall s, In s ZOOM_STEPS -> (s <= fit)%Q -> (s <= z)%Q).
Proof.
  unfold nearest_step; simpl.
  repeat match goal with
         | |- context [Qle_bool ?a fit] =>
             let E := fresh "E" in
             destruct (Qle_bool a fit) eqn:E;
             [apply Qle_bool_true in E | apply Qle_bool_false in E]
         end;
  (split; [simpl; tauto|]);
  (split; [intros; lra|]);
  (split; [intros; first [reflexivity | lra]|]);
  intros s Hs Hsf; simpl in Hs; repeat destruct Hs as [<- | Hs]; try contradiction; lra.
Qed.

(** The zoom chosen on a first load is one of [ZOOM_STEPS], never above
    100%: the largest step at or below the fit ratio
    [min(1, availW / naturalWidth, availH / naturalHeight)], or the smallest
    step (25%) when the fit ratio is below it. *)
Theorem fit_zoom_largest_step (availW availH naturalWidth naturalHeight : Z) :
  0 < naturalWidth -> 0 < naturalHeight ->
  let fit := Qmin (Qmin 1 (inject_Z availW / inject_Z naturalWidth))
                  (inject_Z availH / inject_Z naturalHeight) in
  let z := fit_zoom availW availH naturalWidth naturalHeight in
  In z ZOOM_STEPS /\ (z <= 1)%Q /\
  (((1 # 4) <= fit)%Q -> (z <= fit)%Q) /\ ((fit < 1 # 4)%Q -> z = zoom_step 0) /\
  (forall s, In s ZOOM_STEPS -> (s <= fit)%Q -> (s <= z)%Q).
Proof.
  intros _ _ fit z.
  destruct (nearest_step_spec fit) as (H1 & H2 & H3 & H4).
  assert (Hf : (fit <= 1)%Q).
  { unfold fit; eapply Qle_trans; [apply Q.le_min_l | apply Q.le_min_l]. }
  unfold z, fit_zoom; fold fit.
  split; [exact H1 | split; [|split; [exact H2 | split; [exact H3 | exact H4]]]].
  destruct (Qlt_le_dec fit (1 # 4)) as [Hlt | Hge].
  - rewrite (H3 Hlt); vm_compute; discriminate.
  - specialize (H2 Hge); lra.
Qed.

Lemma fit_zoom_largest_step_witness :
  0 < 800 /\ 0 < 300 /\ (fit_zoom 680 480 800 300 <= 1)%Q /\
  fit_zoom 680 480 800 300 = (1 # 2)%Q.
Proof.
  assert (H1 : 0 < 800) by lia; assert (H2 : 0 < 300) by lia.
  split; [exact H1 | split; [exact H2 | split]].
  - exact (proj1 (proj2 (fit_zoom_largest_step 680 480 800 300 H1 H2))).
  - vm_compute; reflexivity.
Defined.

(** ** trimTransparent and the extracted image *)

Lemma fold_tt_step (c : canvas) l a b c' d f :
  fold_left (fun st p => tt_step c (snd p) st (fst p)) l (a, b, c', d, f) =
  (run_min (on_px c) fst l a, run_min (on_px c) snd l b,
   run_max (on_px c) fst l c', run_max (on_px c) snd l d, f || existsb (on_px c) l).
Proof.
  unfold run_min, run_max; revert a b c' d f.
  induction l as [|[x y] l IH]; intros a b c' d f; simpl.
  - rewrite orb_false_r; reflexivity.
  - change (0 <? alpha (get_pixel c x y)) with (on_px c (x, y)); simpl.
    destruct (on_px c (x, y)); rewrite IH; simpl; destruct f; reflexivity.
Qed.

Lemma run_max_init (f : Z * Z -> bool) (g : Z * Z -> Z) l m0 m1 :
  (exists p, In p l /\ f p = true /\ m0 <= g p /\ m1 <= g p) ->
  run_max f g l m0 = run_max f g l m1.
Proof.
  intros (p & Hp & Hf & H0 & H1).
  destruct (run_max_spec f g l m0) as (A0 & B0 & C0).
  destruct (run_max_spec f g l m1) as (A1 & B1 & C1).
  pose proof (B0 p Hp Hf); pose proof (B1 p Hp Hf).
  destruct C0 as [C0 | (q0 & Hq0 & Hf0 & Hg0)];
    destruct C1 as [C1 | (q1 & Hq1 & Hf1 & Hg1)].
  - lia.
  - pose proof (B0 q1 Hq1 Hf1); lia.
  - pose proof (B1 q0 Hq0 Hf0); lia.
  - pose proof (B0 q1 Hq1 Hf1); pose proof (B1 q0 Hq0 Hf0); lia.
Qed.

Lemma run_max_none (f : Z * Z -> bool) (g : Z * Z -> Z) l m0 :
  existsb f l = false -> run_max f g l m0 = m0.
Proof.
  intros E; destruct (run_max_spec f g l m0) as (_ & _ & [C | (p & Hp & Hf & _)]); [exact C|].
  assert (existsb f l = true) by (apply existsb_exists; exists p; auto); congruence.
Qed.

Lemma trim_eq_bounds (c : canvas) : trimTransparent_scan c = computeBounds_scan c.
Proof.
  unfold trimTransparent_scan, computeBounds_scan; rewrite !fold_scan_points, fold_tt_step, fold_cb_step.
  simpl (false || _).
  set (P := scan_points (width c) (height c)).
  destruct (existsb (on_px c) P) eqn:E.
  - apply existsb_exists in E as (p & Hp & Hon).
    pose proof Hp as Hb; destruct p as [x y]; apply In_scan_points in Hb.
    rewrite (run_max_init (on_px c) fst P 0 (-1)) by (exists (x, y); simpl; intuition lia).
    rewrite (run_max_init (on_px c) snd P 0 (-1)) by (exists (x, y); simpl; intuition lia).
    destruct (run_max_spec (on_px c) fst P (-1)) as (_ & B & _).
    specialize (B (x, y) Hp Hon); simpl in B.
    destruct (Z.ltb_spec (run_max (on_px c) fst P (-1)) 0); [lia | reflexivity].
  - rewrite (run_max_none (on_px c) fst P (-1) E); reflexivity.
Qed.



Lemma tight_bbox_unique (m : canvas) (b1 b2 : rect) :
  tight_bbox m b1 -> tight_bbox m b2 -> b1 = b2.
Proof.
  intros (I1 & (y1 & L1) & (y2 & R1) & (x1 & T1) & (x2 & D1))
         (I2 & (y3 & L2) & (y4 & R2) & (x3 & T2) & (x4 & D2)).
  apply I2 in L1, R1, T1, D1; apply I1 in L2, R2, T2, D2.
  destruct b1, b2; simpl in *; f_equal; lia.
Qed.

Lemma computeBounds_tight_eq (m : canvas) (b : rect) :
  tight_bbox m b -> computeBounds_scan m = Some b.
Proof.
  intros Ht; pose proof (computeBounds_spec m) as H.
  destruct (computeBounds_scan m) as [b'|].
  - f_equal; apply (tight_bbox_unique m); assumption.
  - exfalso; destruct Ht as (_ & (y & Hy) & _); rewrite H in Hy; discriminate.
Qed.

Lemma alpha_trim_copy (crop : canvas) (t : rect) i j :
  let out := drawImage SourceOver (createMask (rw t) (rh t)) crop (rx t) (ry t)
               (rw t) (rh t) 0 0 in
  alpha (get_pixel out i j) =
  if in_rect (Rect 0 0 (rw t) (rh t)) i j
  then alpha (get_pixel crop (rx t + i) (ry t + j)) else 0.
Proof.
  intros out; unfold out, get_pixel at 1, drawImage, createMask, in_canvas; simpl.
  destruct (in_rect (Rect 0 0 (rw t) (rh t)) i j); [|reflexivity].
  rewrite alpha_source_over_transparent, !Z.sub_0_r, (Z.add_comm i), (Z.add_comm j).
  reflexivity.
Qed.

Lemma selected_alpha_pos (c : canvas) x y :
  selected c x y = (0 <? alpha (get_pixel c x y)).
Proof.
  unfold selected, get_pixel; destruct (in_canvas c x y); reflexivity.
Qed.

Lemma selected_at (c : canvas) x y x' y' :
  x = x' -> y = y' -> selected c x' y' = true -> selected c x y = true.
Proof. intros -> ->; exact (fun H => H). Qed.

Lemma extract_output_spec (image mask : canvas) (b : rect) :
  let crop := extract_crop image mask b in
  let out := extractThroughMask image mask b in
  match trimTransparent crop with
  | Throw e => out = Throw e
  | Ok None => out = Ok crop /\ trimTransparent crop = Ok None
  | Ok (Some t) => exists o, out = Ok o /\
      width o = rw t /\ height o = rh t /\
      trimTransparent o = Ok (Some (Rect 0 0 (rw t) (rh t))) /\
      forall i j, 0 <= i < rw t -> 0 <= j < rh t ->
        alpha (get_pixel o i j) = alpha (get_pixel crop (rx t + i) (ry t + j))
  end.
Proof.
  intros crop out; unfold out, extractThroughMask; fold crop.
  destruct (trimTransparent crop) as [[t|]|e] eqn:Ht; [| split; reflexivity | reflexivity].
  unfold trimTransparent in Ht.
  destruct (getImageData_throws (width crop) (height crop)); [discriminate|].
  injection Ht as Ht.
  assert (Htight : tight_bbox crop t).
  { pose proof (computeBounds_spec crop) as H; rewrite <- trim_eq_bounds, Ht in H;
      exact H. }
  assert (Hpos : rect_inside (width crop) (height crop) t)
    by (apply computeBounds_inside; rewrite <- trim_eq_bounds; exact Ht).
  set (o := drawImage SourceOver (createMask (rw t) (rh t)) crop (rx t) (ry t) (rw t) (rh t) 0 0).
  exists o; split; [reflexivity|].
  assert (Ha : forall i j, alpha (get_pixel o i j) =
    if in_rect (Rect 0 0 (rw t) (rh t)) i j
    then alpha (get_pixel crop (rx t + i) (ry t + j)) else 0) by (intros; apply alpha_trim_copy).
  assert (Hs : forall i j, selected o i j =
    in_rect (Rect 0 0 (rw t) (rh t)) i j && selected crop (rx t + i) (ry t + j)).
  { intros i j; rewrite !selected_alpha_pos, Ha.
    destruct (in_rect _ i j); reflexivity. }
  split; [reflexivity | split; [reflexivity | split]].
  - unfold trimTransparent.
    rewrite getImageData_no_throw by (unfold rect_inside in Hpos; simpl; lia).
    f_equal; rewrite trim_eq_bounds; apply computeBounds_tight_eq.
    destruct Htight as (I & (y1 & L) & (y2 & R) & (x1 & T) & (x2 & D)).
    pose proof (I _ _ L); pose proof (I _ _ R); pose proof (I _ _ T); pose proof (I _ _ D).
    unfold tight_bbox; simpl; split; [|split; [|split; [|split]]].
    + intros x y Hxy; rewrite Hs in Hxy; apply andb_true_iff in Hxy as [Hr _].
      unfold in_rect in Hr; simpl in Hr; bool_to_prop; lia.
    + exists (y1 - ry t); rewrite Hs, andb_true_iff; split;
        [unfold in_rect; simpl; bool_to_prop; lia | eapply selected_at; [| | exact L]; lia].
    + exists (y2 - ry t); rewrite Hs, andb_true_iff; split;
        [unfold in_rect; simpl; bool_to_prop; lia | eapply selected_at; [| | exact R]; lia].
    + exists (x1 - rx t); rewrite Hs, andb_true_iff; split;
        [unfold in_rect; simpl; bool_to_prop; lia | eapply selected_at; [| | exact T]; lia].
    + exists (x2 - rx t); rewrite Hs, andb_true_iff; split;
        [unfold in_rect; simpl; bool_to_prop; lia | eapply selected_at; [| | exact D]; lia].
  - intros i j Hi Hj; rewrite Ha.
    replace (in_rect _ i j) with true by (symmetry; unfold in_rect; simpl; bool_to_prop; lia).
    reflexivity.
Qed.

(** The image [extractThroughMask] returns is already trimmed: trimming
    it again gives its full rectangle (or [None] for a blank crop, which
    is returned untrimmed); its size is the trimmed box of the masked
    crop, and each of its pixels has the alpha of the crop pixel at the
    same offset in that box.  When trimming the crop throws, so does
    [extractThroughMask], with the same error. *)
Theorem extract_output_trimmed (image mask : canvas) (b : rect) :
  let crop := extract_crop image mask b in
  let out := extractThroughMask image mask b in
  match trimTransparent crop with
  | Throw e => out = Throw e
  | Ok None => out = Ok crop /\ trimTransparent crop = Ok None
  | Ok (Some t) => exists o, out = Ok o /\
      width o = rw t /\ height o = rh t /\
      trimTransparent o = Ok (Some (Rect 0 0 (rw t) (rh t))) /\
      forall i j, 0 <= i < rw t -> 0 <= j < rh t ->
        alpha (get_pixel o i j) = alpha (get_pixel crop (rx t + i) (ry t + j))
  end.
Proof. apply extract_output_spec. Qed.


(** ** Live rectangles of box and handle drags *)

(** Every rectangle a box drag shows (and commits at pointer-up) lies
    inside the image and is at least one pixel wide and high. *)
Theorem box_move_inside (imgW imgH sx sy ipx ipy : Z) (r : rect) :
  box_move imgW imgH sx sy ipx ipy = Some r -> rect_inside imgW imgH r.
Proof.
  unfold box_move; destruct ((0 <? _) && (0 <? _)) eqn:E; [|discriminate].
  intros Hr; injection Hr as <-; bool_to_prop; unfold rect_inside; simpl; lia.
Qed.

Lemma box_move_inside_witness :
  box_move 10 10 8 8 20 (-3) = Some (Rect 8 0 2 10) /\ rect_inside 10 10 (Rect 8 0 2 10).
Proof.
  assert (E : box_move 10 10 8 8 20 (-3) = Some (Rect 8 0 2 10)) by reflexivity.
  split; [exact E | exact (box_move_inside 10 10 8 8 20 (-3) _ E)].
Defined.

(** While both corners of a box drag are inside the image, the live
    rectangle spans exactly the two corners, and no rectangle is stored
    when the drag has no width or no height. *)
Theorem box_move_spans_corners (imgW imgH sx sy ipx ipy : Z) :
  0 <= sx <= imgW -> 0 <= ipx <= imgW -> 0 <= sy <= imgH -> 0 <= ipy <= imgH ->
  box_move imgW imgH sx sy ipx ipy =
  if (sx =? ipx) || (sy =? ipy) then None
  else Some (Rect (Z.min sx ipx) (Z.min sy ipy) (Z.abs (ipx - sx)) (Z.abs (ipy - sy))).
Proof.
  intros H1 H2 H3 H4; unfold box_move.
  rewrite (Z.max_r 0 (Z.min sx ipx)) by lia; rewrite (Z.max_r 0 (Z.min sy ipy)) by lia.
  rewrite (Z.min_l (Z.abs (ipx - sx))) by lia; rewrite (Z.min_l (Z.abs (ipy - sy))) by lia.
  destruct (Z.eqb_spec sx ipx), (Z.eqb_spec sy ipy), (Z.ltb_spec 0 (Z.abs (ipx - sx))),
    (Z.ltb_spec 0 (Z.abs (ipy - sy))); simpl; reflexivity || lia.
Qed.

Lemma box_move_spans_corners_witness :
  0 <= 2 <= 10 /\ 0 <= 7 <= 10 /\ 0 <= 9 <= 10 /\ 0 <= 1 <= 10 /\
  box_move 10 10 2 9 7 1 = Some (Rect 2 1 5 8).
Proof.
  assert (A : 0 <= 2 <= 10) by lia; assert (B : 0 <= 7 <= 10) by lia;
  assert (C : 0 <= 9 <= 10) by lia; assert (D : 0 <= 1 <= 10) by lia.
  split; [exact A | split; [exact B | split; [exact C | split; [exact D|]]]].
  rewrite (box_move_spans_corners 10 10 2 9 7 1 A B C D); reflexivity.
Defined.

(** Every rectangle a handle drag shows (and commits) lies inside the
    image, whatever the original bounds. *)
Theorem handle_move_inside (imgW imgH : Z) (hid : HandleId) (ob : rect) sx sy ipx ipy
  (r : rect) :
  handle_move imgW imgH hid ob sx sy ipx ipy = Some r -> rect_inside imgW imgH r.
Proof.
  destruct hid; unfold handle_move; simpl;
    match goal with |- context [if ?c then _ else _] => destruct c eqn:E end;
    intros Hr; try discriminate; injection Hr as <-; bool_to_prop;
    unfold rect_inside; simpl; lia.
Qed.

Lemma handle_move_inside_witness :
  handle_move 20 40 HW (Rect 5 5 10 30) 5 20 (-5) 20 = Some (Rect 0 5 20 30) /\
  rect_inside 20 40 (Rect 0 5 20 30).
Proof.
  assert (E : handle_move 20 40 HW (Rect 5 5 10 30) 5 20 (-5) 20 = Some (Rect 0 5 20 30))
    by reflexivity.
  split; [exact E | exact (handle_move_inside 20 40 HW _ 5 20 (-5) 20 _ E)].
Defined.

(** From bounds inside the image, a handle drag always yields a rectangle
    (at least 1 x 1, inside the image), wherever the pointer goes; the west
    edge moves only for a handle naming ['w'], the width only for one naming
    ['w'] or ['e'], and likewise for the north edge and the height. *)
Theorem handle_move_total (imgW imgH : Z) (hid : HandleId) (ob : rect) sx sy ipx ipy :
  rect_inside imgW imgH ob ->
  exists r, handle_move imgW imgH hid ob sx sy ipx ipy = Some r /\
    rect_inside imgW imgH r /\
    (includes hid "w"%char = false -> rx r = rx ob) /\
    (includes hid "w"%char = false -> includes hid "e"%char = false -> rw r = rw ob) /\
    (includes hid "n"%char = false -> ry r = ry ob) /\
    (includes hid "n"%char = false -> includes hid "s"%char = false -> rh r = rh ob).
Proof.
  intros (H1 & H2 & H3 & H4 & H5 & H6).
  destruct hid; unfold handle_move; simpl;
    match goal with |- context [if ?c then _ else _] => destruct c eqn:E end;
    bool_to_prop; try lia;
    (eexists; split; [reflexivity|]); unfold rect_inside; simpl;
    repeat split; intros; try discriminate; lia.
Qed.

Lemma handle_move_total_witness :
  rect_inside 20 40 (Rect 5 5 10 30) /\
  handle_move 20 40 HSE (Rect 5 5 10 30) 15 35 100 100 = Some (Rect 5 5 15 35).
Proof.
  assert (Hin : rect_inside 20 40 (Rect 5 5 10 30)) by (unfold rect_inside; simpl; lia).
  split; [exact Hin|].
  destruct (handle_move_total 20 40 HSE (Rect 5 5 10 30) 15 35 100 100 Hin)
    as (r & Hr & _); rewrite Hr.
  vm_compute in Hr; symmetry; exact Hr.
Defined.

(** ** Handle hit-testing *)

Definition near_handle (px py hx hy : Q) : Prop :=
  (Qabs (px - hx) <= RADIUS)%Q /\ (Qabs (py - hy) <= RADIUS)%Q.

Lemma first_hit_spec (px py : Q) (hs : list (HandleId * Q * Q)) :
  match first_hit px py hs with
  | Some h => exists pre hx hy post, hs = pre ++ (h, hx, hy) :: post /\
      near_handle px py hx hy /\
      forall h' hx' hy', In (h', hx', hy') pre -> ~ near_handle px py hx' hy'
  | None => forall h hx hy, In (h, hx, hy) hs -> ~ near_handle px py hx hy
  end.
Proof.
  induction hs as [|[[id hx] hy] rest IH]; cbn [first_hit]; [intros _ _ _ []|].
  assert (Hfar : Qle_bool (Qabs (px - hx)) RADIUS && Qle_bool (Qabs (py - hy)) RADIUS = false ->
                 ~ near_handle px py hx hy).
  { intros E [A B]; apply Qle_bool_iff in A; apply Qle_bool_iff in B; rewrite A, B in E;
      discriminate. }
  destruct (Qle_bool (Qabs (px - hx)) RADIUS && Qle_bool (Qabs (py - hy)) RADIUS) eqn:E.
  - apply andb_true_iff in E as [A B].
    exists [], hx, hy, rest; split; [reflexivity|].
    split; [split; apply Qle_bool_iff; assumption | intros _ _ _ []].
  - specialize (Hfar eq_refl); destruct (first_hit px py rest) as [h|].
    + destruct IH as (pre & hx' & hy' & post & -> & Hn & Hpre).
      exists ((id, hx, hy) :: pre), hx', hy', post; split; [reflexivity|].
      split; [exact Hn|].
      intros h' hx'' hy'' [E' | Hin]; [injection E' as <- <- <-; exact Hfar|].
      apply (Hpre h'); exact Hin.
    + intros h hx'' hy'' [E' | Hin]; [injection E' as <- <- <-; exact Hfar|].
      apply (IH h); exact Hin.
Qed.

(** [hitHandle] returns the first handle, in the order nw, n, ne, e, se,
    s, sw, w of [getHandles], whose centre is within [RADIUS] (6) canvas
    pixels of the pointer on both axes, and [null] when no handle is. *)
Theorem hitHandle_first_within_radius (px py : Q) (bounds : rect) (zoom : Q) :
  match hitHandle px py bounds zoom with
  | Some h => exists pre hx hy post, getHandles bounds zoom = pre ++ (h, hx, hy) :: post /\
      near_handle px py hx hy /\
      forall h' hx' hy', In (h', hx', hy') pre -> ~ near_handle px py hx' hy'
  | None => forall h hx hy, In (h, hx, hy) (getHandles bounds zoom) ->
      ~ near_handle px py hx hy
  end.
Proof. apply first_hit_spec. Qed.

(** ** Pointer handlers *)

(** Pointer-down and pointer-move never touch the store's splitter slice
    (image, mask, bounds, extracted canvas), the outline, the tool or the
    zoom: a selection changes only at pointer-up. *)
Theorem pointer_down_move_keep_selection (ed : Editor) (e : PointerEvent) :
  let d := onPointerDown ed e in
  let m := onPointerMove ed e in
  splitter d = splitter ed /\ maskOutline d = maskOutline ed /\
  tool d = tool ed /\ zoom d = zoom ed /\
  splitter m = splitter ed /\ maskOutline m = maskOutline ed /\
  tool m = tool ed /\ zoom m = zoom ed.
Proof.
  cbv zeta; unfold onPointerDown, onPointerMove.
  repeat split;
    repeat match goal with
           | |- context [match ?x with _ => _ end] => let E := fresh "E" in destruct x eqn:E
           end; simpl; congruence.
Qed.

Lemma onPointerDown_live ed e : liveDragRect (onPointerDown ed e) = liveDragRect ed.
Proof. unfold onPointerDown; destruct_matches; reflexivity. Qed.

Lemma onPointerUp_live drawScaled fillPath ed :
  liveDragRect (onPointerUp drawScaled fillPath ed) = None.
Proof. unfold onPointerUp, commitMask; destruct_matches; reflexivity. Qed.

(** Pointer-up always ends the drag and drops the live rectangle; a box or
    handle drag that never showed a live rectangle (the pointer did not
    move by a pixel) commits nothing, and neither does the end of a pan. *)
Theorem onPointerUp_ends_drag
  (drawScaled : canvas -> Z -> Z -> canvas)
  (fillPath : composite_op -> canvas -> list point -> canvas) (ed : Editor) :
  let ed' := onPointerUp drawScaled fillPath ed in
  dragRef ed' = DragNone /\ liveDragRect ed' = None /\
  tool ed' = tool ed /\ zoom ed' = zoom ed /\
  ((liveDragRect ed = None /\ forall m pts, dragRef ed <> DragLasso m pts) \/
   (exists a b c d, dragRef ed = DragPan a b c d) ->
   splitter ed' = splitter ed /\ maskOutline ed' = maskOutline ed).
Proof.
  cbv zeta; split; [apply onPointerUp_drag | split; [apply onPointerUp_live|]].
  split; [unfold onPointerUp, commitMask; destruct_matches; reflexivity|].
  split; [unfold onPointerUp, commitMask; destruct_matches; reflexivity|].
  intros H; unfold onPointerUp.
  change (image (splitter (set_live (set_drag ed DragNone) None))) with (image (splitter ed)).
  destruct H as [[Hl Hd] | (a & b & c & d & Hd)].
  - rewrite Hl; destruct (dragRef ed) eqn:E; try (exfalso; eapply Hd; reflexivity);
      destruct (image (splitter ed)); split; reflexivity.
  - rewrite Hd; split; reflexivity.
Qed.

(** Drag invariant of every reachable state: no live rectangle without a
    drag, and the point list of a lasso drag is never empty. *)
Definition drag_inv (ed : Editor) : Prop :=
  (dragRef ed = DragNone -> liveDragRect ed = None) /\
  (forall m pts, dragRef ed = DragLasso m pts -> pts <> []).

Lemma drag_inv_step drawScaled fillPath ed a :
  drag_inv ed -> drag_inv (step drawScaled fillPath ed a).
Proof.
  intros [H1 H2]; destruct a; simpl.
  - unfold drag_inv; unfold onPointerDown.
    destruct (image (splitter ed)); [|split; assumption].
    destruct (button e =? 1); [split; simpl; [discriminate | intros m pts E; discriminate]|].
    destruct (toImgCoords _ _ _); destruct (tool ed);
      [destruct (selectionBounds (splitter ed)); [destruct (hitHandle _ _ _ _)|]|];
      simpl; split; try discriminate; intros m pts E; try discriminate;
      injection E as _ <-; discriminate.
  - unfold drag_inv, onPointerMove.
    destruct (image (splitter ed)); [|split; assumption].
    destruct (dragRef ed) eqn:Hd; simpl.
    + rewrite Hd; split; assumption.
    + destruct_matches; simpl; rewrite ?Hd;
        (split; [discriminate | intros m pts E; discriminate]).
    + destruct (toImgCoords (zoom ed) (canvasX e) (canvasY e)) as [ipx ipy].
      destruct (_ || _); simpl.
      * split; [discriminate|]; intros m pts E; injection E as _ <-.
        destruct points; discriminate.
      * rewrite Hd; split; [discriminate | exact H2].
    + destruct_matches; simpl; rewrite ?Hd;
        (split; [discriminate | intros m pts E; discriminate]).
    + simpl; rewrite Hd; split; [discriminate | intros m pts E; discriminate].
  - split; [intros _; apply onPointerUp_live | rewrite onPointerUp_drag; discriminate].
  - split; assumption.
  - unfold handleSelectAll; destruct (image (splitter ed)); [|split; assumption].
    unfold drag_inv; rewrite commitMask_drag, commitMask_live; split; assumption.
  - split; assumption.
  - split; assumption.
  - unfold dropImage; destruct (image (splitter ed)); split; assumption.
  - split; assumption.
  - split; assumption.
  - split; assumption.
Qed.

Lemma drag_inv_run drawScaled fillPath acts : drag_inv (run drawScaled fillPath acts).
Proof.
  unfold run.
  assert (H0 : drag_inv init_editor) by (split; [reflexivity | intros m pts E; discriminate]).
  revert H0; generalize init_editor; induction acts as [|a acts IH]; intros ed Hed; simpl.
  - exact Hed.
  - apply IH, drag_inv_step, Hed.
Qed.

(** In every reachable state a lasso drag holds at least one point, so
    the [pts[pts.length - 1]] of pointer-move always reads a stored point. *)
Theorem lasso_points_nonempty
  (drawScaled : canvas -> Z -> Z -> canvas)
  (fillPath : composite_op -> canvas -> list point -> canvas) (acts : list Action) :
  match dragRef (run drawScaled fillPath acts) with
  | DragLasso _ pts => pts <> []
  | _ => True
  end.
Proof.
  destruct (drag_inv_run drawScaled fillPath acts) as [_ H].
  destruct (dragRef (run drawScaled fillPath acts)) eqn:E; trivial.
  exact (H _ _ eq_refl).
Qed.

Lemma run_app drawScaled fillPath acts more :
  run drawScaled fillPath (acts ++ more) =
  fold_left (step drawScaled fillPath) more (run drawScaled fillPath acts).
Proof. unfold run; apply fold_left_app. Qed.

(** From any reachable state with no drag in progress, a click (a
    pointer-down followed by a pointer-up without a move) leaves the
    selection and the outline as they were, with either tool and any
    button or modifier. *)
Theorem click_keeps_selection
  (drawScaled : canvas -> Z -> Z -> canvas)
  (fillPath : composite_op -> canvas -> list point -> canvas)
  (acts : list Action) (e : PointerEvent) :
  dragRef (run drawScaled fillPath acts) = DragNone ->
  let ed := run drawScaled fillPath acts in
  let ed' := run drawScaled fillPath (acts ++ [PointerDown e; PointerUp]) in
  splitter ed' = splitter ed /\ maskOutline ed' = maskOutline ed.
Proof.
  intros Hd ed ed'; unfold ed'; rewrite run_app; fold ed; simpl.
  destruct (drag_inv_run drawScaled fillPath acts) as [Hl _]; fold ed in Hl, Hd.
  specialize (Hl Hd).
  unfold onPointerUp.
  change (image (splitter (set_live (set_drag (onPointerDown ed e) DragNone) None)))
    with (image (splitter (onPointerDown ed e))).
  change (selectionMask (splitter (set_live (set_drag (onPointerDown ed e) DragNone) None)))
    with (selectionMask (splitter (onPointerDown ed e))).
  rewrite onPointerDown_live, Hl, onPointerDown_splitter.
  unfold onPointerDown.
  destruct (image (splitter ed)) as [img|] eqn:Hi.
  - destruct (button e =? 1); [simpl; split; reflexivity|].
    destruct (toImgCoords _ _ _); destruct (tool ed);
      [destruct (selectionBounds (splitter ed)); [destruct (hitHandle _ _ _ _)|]|];
      simpl; rewrite ?Hi; split; reflexivity.
  - rewrite Hd; split; reflexivity.
Qed.

Lemma click_keeps_selection_witness :
  dragRef (run (fun c _ _ => c) (fun _ c _ => c) (firstn 4 handle_w_session)) = DragNone /\
  selectionBounds (splitter (run (fun c _ _ => c) (fun _ c _ => c)
    (firstn 4 handle_w_session ++ [PointerDown (pointer_at 1 1); PointerUp]))) =
  Some (Rect 5 5 10 30).
Proof.
  assert (Hd : dragRef (run (fun c _ _ => c) (fun _ c _ => c) (firstn 4 handle_w_session))
               = DragNone) by (vm_compute; reflexivity).
  split; [exact Hd|].
  rewrite (proj1 (click_keeps_selection (fun c _ _ => c) (fun _ c _ => c) _
                    (pointer_at 1 1) Hd)).
  vm_compute; reflexivity.
Defined.

(** ** The committed selection *)






Section Invariants.

Variable drawScaled : canvas -> Z -> Z -> canvas.
Variable fillPath : composite_op -> canvas -> list point -> canvas.
Hypothesis fillPath_dims : forall op c pts,
  width (fillPath op c pts) = width c /\ height (fillPath op c pts) = height c.





End Invariants.





(** ** Select all *)

Lemma get_pixel_full_mask (W H x y : Z) :
  get_pixel (paintBox (createMask W H) 0 0 W H replace) x y =
  if in_rect (Rect 0 0 W H) x y then white else transparent.
Proof.
  unfold get_pixel, paintBox, fillRect, clearRect, createMask, in_canvas; simpl.
  destruct (in_rect (Rect 0 0 W H) x y) eqn:E; [|reflexivity].
  assert (Hn : norm_rect (Rect 0 0 W H) = Rect 0 0 W H)
    by (apply norm_rect_id; unfold in_rect in E; simpl in *; bool_to_prop; lia).
  rewrite Hn, E; reflexivity.
Qed.

Lemma computeBounds_selected_ext (c c' : canvas) :
  (forall x y, selected c x y = selected c' x y) -> computeBounds_scan c = computeBounds_scan c'.
Proof.
  intros Hs.
  assert (Ht : forall b, tight_bbox c b -> tight_bbox c' b).
  { intros b (I & (y1 & L) & (y2 & R) & (x1 & T) & (x2 & D)); rewrite Hs in L, R, T, D.
    split; [intros x y Hxy; apply I; rewrite Hs; exact Hxy|].
    split; [exists y1; exact L | split; [exists y2; exact R | split; [exists x1 | exists x2]]];
      assumption. }
  pose proof (computeBounds_spec c) as H; pose proof (computeBounds_spec c') as H'.
  destruct (computeBounds_scan c) as [b|], (computeBounds_scan c') as [b'|].
  - f_equal; apply (tight_bbox_unique c'); [apply Ht|]; assumption.
  - exfalso; destruct H as (_ & (y & Hy) & _); rewrite Hs, H' in Hy; discriminate.
  - exfalso; destruct H' as (_ & (y & Hy) & _); rewrite <- Hs, H in Hy; discriminate.
  - reflexivity.
Qed.

Lemma selectAll_bounds (W H : Z) :
  computeBounds_scan (paintBox (createMask W H) 0 0 W H replace) =
  if (0 <? W) && (0 <? H) then Some (Rect 0 0 W H) else None.
Proof.
  set (m := paintBox (createMask W H) 0 0 W H replace).
  assert (Hs : forall x y, selected m x y = in_rect (Rect 0 0 W H) x y).
  { intros x y; rewrite selected_alpha_pos; unfold m; rewrite get_pixel_full_mask.
    destruct (in_rect _ x y); reflexivity. }
  destruct (Z.ltb_spec 0 W), (Z.ltb_spec 0 H); simpl.
  - apply computeBounds_tight_eq; unfold tight_bbox; simpl.
    split; [intros x y Hxy; rewrite Hs in Hxy; unfold in_rect in Hxy; simpl in Hxy;
            bool_to_prop; lia|].
    split; [exists 0 | split; [exists 0 | split; [exists 0 | exists 0]]];
      rewrite Hs; unfold in_rect; simpl; bool_to_prop; lia.
  - pose proof (computeBounds_spec m) as Hc; destruct (computeBounds_scan m); [|reflexivity].
    destruct Hc as (_ & (y & Hy) & _); rewrite Hs in Hy; unfold in_rect in Hy; simpl in Hy;
      bool_to_prop; lia.
  - pose proof (computeBounds_spec m) as Hc; destruct (computeBounds_scan m); [|reflexivity].
    destruct Hc as (_ & (y & Hy) & _); rewrite Hs in Hy; unfold in_rect in Hy; simpl in Hy;
      bool_to_prop; lia.
  - pose proof (computeBounds_spec m) as Hc; destruct (computeBounds_scan m); [|reflexivity].
    destruct Hc as (_ & (y & Hy) & _); rewrite Hs in Hy; unfold in_rect in Hy; simpl in Hy;
      bool_to_prop; lia.
Qed.



Lemma mul255_255 (a : Z) : mul255 a 255 = a.
Proof. unfold mul255; symmetry; apply (Z.div_unique _ _ _ 127); lia. Qed.

(** Select-all followed by extract gives the source image trimmed to the
    tight box of its pixels with alpha > 0: the result has the size of
    [trimTransparent(image)], and each of its pixels the alpha of the
    image pixel at the same offset in that box; an image with no such
    pixel comes back at full size with its alpha unchanged. *)
Theorem selectAll_extract_trims_image
  (drawScaled : canvas -> Z -> Z -> canvas) (ed : Editor) (img : canvas) :
  image (splitter ed) = Some img -> 0 < width img -> 0 < height img ->
  exists out,
    extractedCanvas (splitter (extractAction (handleSelectAll drawScaled ed))) = Some out /\
    match trimTransparent img with
    | Throw _ => False
    | Ok None => width out = width img /\ height out = height img /\
                 forall x y, alpha (get_pixel out x y) = alpha (get_pixel img x y)
    | Ok (Some t) => width out = rw t /\ height out = rh t /\
        forall i j, 0 <= i < rw t -> 0 <= j < rh t ->
          alpha (get_pixel out i j) = alpha (get_pixel img (rx t + i) (ry t + j))
    end.
Proof.
  intros Hi Hw Hh.
  set (W := width img) in *; set (H := height img) in *.
  set (mask := paintBox (createMask W H) 0 0 W H replace).
  assert (Hb : computeBounds mask = Ok (Some (Rect 0 0 W H))).
  { unfold computeBounds; rewrite getImageData_no_throw by (simpl; lia).
    f_equal; unfold mask; rewrite selectAll_bounds.
    destruct (Z.ltb_spec 0 W), (Z.ltb_spec 0 H); simpl; [reflexivity | lia..]. }
  assert (Hno : outline_throws mask = false).
  { unfold outline_throws; apply andb_false_iff; right.
    apply orb_false_iff; split; apply Z.eqb_neq; simpl; lia. }
  unfold handleSelectAll; rewrite Hi; fold W H; fold mask.
  unfold commitMask; rewrite Hno, Hb.
  unfold extractAction, doExtract_state, doExtract; simpl; rewrite Hi.
  set (crop := extract_crop img mask (Rect 0 0 W H)).
  assert (Ha : forall x y, alpha (get_pixel crop x y) = alpha (get_pixel img x y)).
  { intros x y.
    destruct (in_canvas img x y) eqn:Hc.
    - apply in_canvas_iff in Hc; fold W H in Hc.
      unfold crop; rewrite (alpha_extract_crop img mask (Rect 0 0 W H) x y) by (simpl; lia).
      simpl; unfold mask; rewrite get_pixel_full_mask.
      replace (in_rect _ x y) with true by (symmetry; unfold in_rect; simpl; bool_to_prop; lia).
      apply mul255_255.
    - assert (Hc' : in_canvas crop x y = false) by exact Hc.
      unfold get_pixel; rewrite Hc, Hc'; reflexivity. }
  assert (Htrim : trimTransparent_scan crop = trimTransparent_scan img).
  { rewrite !trim_eq_bounds; apply computeBounds_selected_ext.
    intros x y; rewrite !selected_alpha_pos, Ha; reflexivity. }
  pose proof (extract_output_spec img mask (Rect 0 0 W H)) as Hout; cbv zeta in Hout.
  fold crop in Hout.
  assert (Hcrop : trimTransparent crop = Ok (trimTransparent_scan img)).
  { unfold trimTransparent; rewrite getImageData_no_throw by (simpl; lia).
    rewrite Htrim; reflexivity. }
  assert (Himg : trimTransparent img = Ok (trimTransparent_scan img)).
  { unfold trimTransparent; rewrite getImageData_no_throw by lia; reflexivity. }
  rewrite Hcrop in Hout; rewrite Himg.
  destruct (trimTransparent_scan img) as [t|].
  - destruct Hout as (o & Eo & Ow & Oh & _ & Op).
    rewrite Eo; exists o; split; [reflexivity|].
    split; [exact Ow | split; [exact Oh|]].
    intros i j Hi' Hj'; rewrite Op by assumption; apply Ha.
  - destruct Hout as (Eo & _).
    rewrite Eo; eexists; split; [reflexivity|].
    split; [reflexivity | split; [reflexivity | exact Ha]].
Qed.

Lemma selectAll_extract_trims_image_witness :
  image (splitter (run (fun c _ _ => c) (fun _ c _ => c) (firstn 1 handle_w_session))) =
    Some (Canvas 20 40 (fun _ _ => white)) /\
  0 < width (Canvas 20 40 (fun _ _ => white)) /\ 0 < height (Canvas 20 40 (fun _ _ => white)) /\
  exists out, extractedCanvas (splitter (extractAction (handleSelectAll (fun c _ _ => c)
     (run (fun c _ _ => c) (fun _ c _ => c) (firstn 1 handle_w_session))))) = Some out /\
     width out = 20.
Proof.
  assert (Hi : image (splitter (run (fun c _ _ => c) (fun _ c _ => c)
                                  (firstn 1 handle_w_session))) =
               Some (Canvas 20 40 (fun _ _ => white))) by reflexivity.
  assert (Hw : 0 < width (Canvas 20 40 (fun _ _ => white))) by (simpl; lia).
  assert (Hh : 0 < height (Canvas 20 40 (fun _ _ => white))) by (simpl; lia).
  split; [exact Hi | split; [exact Hw | split; [exact Hh|]]].
  destruct (selectAll_extract_trims_image (fun c _ _ => c) _ _ Hi Hw Hh) as (out & Hout & Hm).
  exists out; split; [exact Hout|].
  assert (Ht : trimTransparent (Canvas 20 40 (fun _ _ => white)) = Ok (Some (Rect 0 0 20 40)))
    by (vm_compute; reflexivity).
  rewrite Ht in Hm; destruct Hm as (Ow & _); exact Ow.
Defined.

(** ** Size of the traced outline *)

Lemma length_seqZ (n : Z) : List.length (seqZ n) = Z.to_nat n.
Proof. unfold seqZ; rewrite length_map, length_seq; reflexivity. Qed.

Lemma length_flat_map_le {A B} (f : A -> list B) (l : list A) (k : nat) :
  (forall a, In a l -> (List.length (f a) <= k)%nat) ->
  (List.length (flat_map f l) <= List.length l * k)%nat.
Proof.
  induction l as [|a l IH]; intros Hk; simpl; [lia|].
  rewrite length_app.
  assert (List.length (f a) <= k)%nat by (apply Hk; left; reflexivity).
  assert (List.length (flat_map f l) <= List.length l * k)%nat
    by (apply IH; intros b Hb; apply Hk; right; exact Hb).
  lia.
Qed.

Lemma pixel_edges_length (on : Z -> Z -> bool) (inv : Q) x y :
  (List.length (pixel_edges on inv x y) <= 4)%nat.
Proof.
  unfold pixel_edges; destruct (negb (on x y)); simpl; [lia|].
  destruct (negb (on x (y - 1))), (negb (on x (y + 1))), (negb (on (x - 1) y)),
    (negb (on (x + 1) y)); simpl; lia.
Qed.

Lemma trace_dim_le (a w h : Z) :
  0 <= w -> 0 <= h -> 0 <= a <= Z.max w h ->
  Z.max 1 (js_round (inject_Z a * trace_scale w h)) <= MAX_TRACE.
Proof.
  intros Hw Hh Ha.
  destruct (Z_le_gt_dec (Z.max w h) MAX_TRACE) as [Hle | Hgt].
  - rewrite trace_scale_le_cap by lia.
    unfold js_round, Qfloor, Qplus, Qmult, inject_Z; simpl.
    rewrite Z.mul_1_r.
    assert ((a * 2 + 1) / 2 = a) as -> by (symmetry; apply (Z.div_unique _ _ _ 1); lia).
    unfold MAX_TRACE in *; lia.
  - unfold trace_scale; cbv zeta.
    destruct (Z.max w h) as [|p|p] eqn:E; [unfold MAX_TRACE in Hgt; lia | | lia].
    simpl (Z.pos p =? 0); cbv iota.
    destruct (Qle_bool 1 (inject_Z MAX_TRACE / inject_Z (Z.pos p))) eqn:E1.
    + apply Qle_bool_iff in E1; unfold Qle, Qdiv, Qmult, Qinv, inject_Z, MAX_TRACE in *;
        simpl in E1; lia.
    + unfold js_round, Qfloor, Qplus, Qmult, Qdiv, Qinv, inject_Z, MAX_TRACE in *; simpl.
      rewrite Pos2Z.inj_mul.
      assert ((a * 512 * 2 + Z.pos p) / (Z.pos p * 2) < 513)
        by (apply Z.div_lt_upper_bound; lia).
      lia.
Qed.

(** Whatever the size of the mask, the traced outline has at most
    [4 * 512 * 512] segments: the tracer scans a raster of at most 512 x 512
    pixels (the mask itself, or its downscaled copy for a larger mask) and
    emits at most four edges per pixel. *)
Theorem outline_size_capped (drawScaled : canvas -> Z -> Z -> canvas) (mask : canvas) :
  0 <= width mask -> 0 <= height mask ->
  Z.of_nat (List.length (buildMaskOutlinePath drawScaled mask)) <=
  4 * MAX_TRACE * MAX_TRACE.
Proof.
  intros Hw Hh; unfold buildMaskOutlinePath; cbv zeta.
  set (W := Z.max 1 (js_round (inject_Z (width mask) *
                                trace_scale (width mask) (height mask)))).
  set (H := Z.max 1 (js_round (inject_Z (height mask) *
                                trace_scale (width mask) (height mask)))).
  assert (HW : W <= MAX_TRACE) by (apply trace_dim_le; lia).
  assert (HH : H <= MAX_TRACE) by (apply trace_dim_le; lia).
  assert (W1 : 1 <= W) by lia; assert (H1 : 1 <= H) by lia.
  match goal with |- context [flat_map ?f (seqZ H)] =>
    assert (Hl : (List.length (flat_map f (seqZ H)) <= List.length (seqZ H) * (Z.to_nat W * 4))%nat)
  end.
  { apply length_flat_map_le; intros y _.
    rewrite <- (length_seqZ W); apply length_flat_map_le; intros x _.
    apply pixel_edges_length. }
  rewrite !length_seqZ in Hl.
  apply Nat2Z.inj_le in Hl; rewrite !Nat2Z.inj_mul, !Z2Nat.id in Hl by lia.
  unfold MAX_TRACE in *; nia.
Qed.

Lemma outline_size_capped_witness :
  0 <= width (createMask 2000 10) /\ 0 <= height (createMask 2000 10) /\
  Z.of_nat (List.length (buildMaskOutlinePath (fun c _ _ => c) (createMask 2000 10))) <=
  4 * MAX_TRACE * MAX_TRACE.
Proof.
  assert (H1 : 0 <= width (createMask 2000 10)) by (simpl; lia).
  assert (H2 : 0 <= height (createMask 2000 10)) by (simpl; lia).
  split; [exact H1 | split; [exact H2|]].
  exact (outline_size_capped (fun c _ _ => c) (createMask 2000 10) H1 H2).
Defined.

(** ** The outline and the selection *)

Lemma outline_members (drawScaled : canvas -> Z -> Z -> canvas) (mask : canvas) :
  0 <= width mask -> 0 <= height mask ->
  Z.max (width mask) (height mask) <= MAX_TRACE ->
  forall s, In s (buildMaskOutlinePath drawScaled mask) <->
    exists x y d, selected mask x y = true /\
      selected mask (fst (neighbor d x y)) (snd (neighbor d x y)) = false /\
      s = unit_edge d x y.
Proof.
  intros Hw Hh Hm.
  assert (Hs : trace_scale (width mask) (height mask) = 1%Q) by (apply trace_scale_le_cap; lia).
  intros s; unfold buildMaskOutlinePath; rewrite Hs; cbv zeta.
  rewrite !js_round_int; simpl (negb (Qle_bool 1 1)); cbv iota; simpl (Qinv 1).
  set (on := fun x y => if (x <? 0) || (y <? 0) || (Z.max 1 (width mask) <=? x) ||
                          (Z.max 1 (height mask) <=? y) then false
                        else 0 <? alpha (get_pixel mask x y)).
  assert (Hon : forall x y, on x y = selected mask x y).
  { intros x y; unfold on, selected, get_pixel.
    destruct (in_canvas mask x y) eqn:Hc.
    - apply in_canvas_iff in Hc.
      replace ((x <? 0) || (y <? 0) || (Z.max 1 (width mask) <=? x) ||
               (Z.max 1 (height mask) <=? y)) with false; [reflexivity|].
      symmetry; bool_to_prop; lia.
    - destruct ((x <? 0) || (y <? 0) || (Z.max 1 (width mask) <=? x) ||
                (Z.max 1 (height mask) <=? y)); reflexivity. }
  rewrite in_flat_map; split.
  - intros (y & Hy & Hx); rewrite in_flat_map in Hx; destruct Hx as (x & Hx & He).
    apply In_pixel_edges in He as (Ho & d & Hn & ->).
    exists x, y, d; rewrite <- !Hon; auto.
  - intros (x & y & d & Hsel & Hn & ->).
    pose proof Hsel as Hc; unfold selected in Hc; apply andb_true_iff in Hc as [Hc _].
    apply in_canvas_iff in Hc.
    exists y; split; [apply In_seqZ; lia|].
    apply in_flat_map; exists x; split; [apply In_seqZ; lia|].
    apply In_pixel_edges; rewrite Hon; split; [exact Hsel|].
    exists d; split; [rewrite Hon; exact Hn | reflexivity].
Qed.

Lemma right_boundary (m : canvas) (y : Z) :
  forall n x, Z.to_nat (width m - x) = n -> selected m x y = true ->
  exists x', selected m x' y = true /\ selected m (x' + 1) y = false.
Proof.
  induction n as [|n IH]; intros x Hn Hs.
  - exfalso; unfold selected in Hs; apply andb_true_iff in Hs as [Hc _].
    apply in_canvas_iff in Hc; lia.
  - destruct (selected m (x + 1) y) eqn:E; [|exists x; split; assumption].
    apply (IH (x + 1)); [lia | exact E].
Qed.

(** For a mask within the tracing cap, the outline is empty exactly when
    no pixel is selected: every non-empty selection has a pixel whose
    right neighbour is unselected, and that side is traced. *)
Theorem outline_empty_iff_nothing_selected
  (drawScaled : canvas -> Z -> Z -> canvas) (mask : canvas) :
  0 <= width mask -> 0 <= height mask ->
  Z.max (width mask) (height mask) <= MAX_TRACE ->
  buildMaskOutlinePath drawScaled mask = [] <-> forall x y, selected mask x y = false.
Proof.
  intros Hw Hh Hm; pose proof (outline_members drawScaled mask Hw Hh Hm) as Hmem.
  split.
  - intros E x y; destruct (selected mask x y) eqn:Hs; [exfalso|reflexivity].
    destruct (right_boundary mask y _ x eq_refl Hs) as (x' & H1 & H2).
    assert (Hin : In (unit_edge Right x' y) (buildMaskOutlinePath drawScaled mask))
      by (apply Hmem; exists x', y, Right; auto).
    rewrite E in Hin; exact Hin.
  - intros Hno; destruct (buildMaskOutlinePath drawScaled mask) as [|s l] eqn:E;
      [reflexivity | exfalso].
    assert (Hin : In s (s :: l)) by (left; reflexivity).
    apply Hmem in Hin as (x & y & d & Hs & _ & _); rewrite Hno in Hs; discriminate.
Qed.

Lemma outline_empty_iff_nothing_selected_witness :
  0 <= width (createMask 3 2) /\ 0 <= height (createMask 3 2) /\
  Z.max (width (createMask 3 2)) (height (createMask 3 2)) <= MAX_TRACE /\
  buildMaskOutlinePath (fun c _ _ => c) (createMask 3 2) = [].
Proof.
  assert (H1 : 0 <= width (createMask 3 2)) by (simpl; lia).
  assert (H2 : 0 <= height (createMask 3 2)) by (simpl; lia).
  assert (H3 : Z.max (width (createMask 3 2)) (height (createMask 3 2)) <= MAX_TRACE)
    by (unfold MAX_TRACE; simpl; lia).
  split; [exact H1 | split; [exact H2 | split; [exact H3|]]].
  apply (outline_empty_iff_nothing_selected (fun c _ _ => c) _ H1 H2 H3).
  intros x y; unfold selected, get_pixel; destruct (in_canvas _ x y); reflexivity.
Defined.

(** ** Pointer coordinates *)

(** [toImgCoords] maps a canvas point to the nearest image coordinate:
    [cx / zoom] lies within half a pixel of it (halves round up, as
    [Math.round] does). *)
Theorem toImgCoords_nearest (zoom cx cy : Q) :
  (0 < zoom)%Q ->
  let '(ix, iy) := toImgCoords zoom cx cy in
  (inject_Z ix - (1 # 2) <= cx / zoom < inject_Z ix + (1 # 2))%Q /\
  (inject_Z iy - (1 # 2) <= cy / zoom < inject_Z iy + (1 # 2))%Q.
Proof.
  intros _; unfold toImgCoords, js_round; cbv beta iota.
  generalize (cx / zoom)%Q (cy / zoom)%Q; intros u v.
  pose proof (Qfloor_le (u + (1 # 2))%Q) as A1.
  pose proof (Qlt_floor (u + (1 # 2))%Q) as A2.
  pose proof (Qfloor_le (v + (1 # 2))%Q) as B1.
  pose proof (Qlt_floor (v + (1 # 2))%Q) as B2.
  rewrite inject_Z_plus in A2, B2; change (inject_Z 1) with 1%Q in A2, B2.
  generalize (inject_Z (Qfloor (u + (1 # 2))%Q)) (inject_Z (Qfloor (v + (1 # 2))%Q))
    A1 A2 B1 B2; intros a b ? ? ? ?.
  split; split; lra.
Qed.

Lemma toImgCoords_nearest_witness :
  (0 < 2)%Q /\ toImgCoords 2 5 (-3) = (3, -1).
Proof.
  assert (Hz : (0 < 2)%Q) by lra.
  split; [exact Hz|].
  pose proof (toImgCoords_nearest 2 5 (-3) Hz) as H.
  destruct (toImgCoords 2 5 (-3)) as [ix iy] eqn:E.
  vm_compute in E; symmetry; exact E.
Defined.
